(** * BlackBone [Process]: lifecycle and process enumeration

  A shallow embedding of [src/BlackBone/Process/Process.cpp]:
  [Process::EnumByNameOrPID] (snapshot enumerator) and the lifecycle
  surface [Attach] / [CreateAndAttach] / [Detach] / [EnsureInit] /
  [Terminate].  Calls that leave the translation unit (the NT system
  call, [VirtualAlloc], the owned subsystems, Win32) are answered by an
  explicit environment record and logged, so that "what was called, in
  which order, with which arguments" is a value theorems can speak about. *)

From Stdlib Require Import ZArith Lia String.
From stdpp Require Import base numbers list sorting.

Local Open Scope Z_scope.

(** ** Machine integers and NTSTATUS *)

Module Nt.

Definition NTSTATUS := Z.
Definition HANDLE := Z.

(** Conversion of a value to a signed two's-complement integer of
    [w] bits, as the initialisation [int64_t x = 0xFFFFFFFFFFFFFFFF]
    and the NTSTATUS constants need it. *)
Definition to_signed (w : Z) (z : Z) : Z :=
  (z + 2 ^ (w - 1)) mod 2 ^ w - 2 ^ (w - 1).

Definition to_int64 : Z -> Z := to_signed 64.
Definition to_int32 : Z -> Z := to_signed 32.

(** [static_cast<uint32_t>] *)
Definition to_uint32 (z : Z) : Z := z mod 2 ^ 32.

(** [#define NT_SUCCESS(Status) (((NTSTATUS)(Status)) >= 0)] *)
Definition NT_SUCCESS (s : NTSTATUS) : bool := 0 <=? s.

Definition STATUS_SUCCESS : NTSTATUS := 0.
Definition STATUS_INFO_LENGTH_MISMATCH : NTSTATUS := to_int32 0xC0000004.
Definition STATUS_ACCESS_DENIED : NTSTATUS := to_int32 0xC0000022.
Definition STATUS_NOT_FOUND : NTSTATUS := to_int32 0xC0000225.
Definition STATUS_OBJECT_NAME_NOT_FOUND : NTSTATUS := to_int32 0xC0000034.
Definition STATUS_ACCESS_VIOLATION : NTSTATUS := to_int32 0xC0000005.

Definition NULL : HANDLE := 0.

End Nt.

(** ** Wide strings and the CRT comparison *)

Module Wstr.

(** A [std::wstring] / [wchar_t] array: UTF-16 code units. *)
Definition wchar := Z.
Definition wstring := list wchar.

(** [towlower] in the "C" locale: only [L'A'..L'Z'] change. *)
Definition towlower (c : wchar) : wchar :=
  if (65 <=? c) && (c <=? 90) then c + 32 else c.

(** [name.c_str()] as a C string: the code units before the first
    terminator. *)
Fixpoint c_str (s : wstring) : wstring :=
  match s with
  | [] => []
  | c :: s' => if c =? 0 then [] else c :: c_str s'
  end.

(** [name.empty()] *)
Definition empty (s : wstring) : bool :=
  match s with
  | [] => true
  | _ :: _ => false
  end.

(** Lexicographic comparison of the lower-cased strings; the result is
    the difference at the first position where they differ (a missing
    unit reads as the terminator 0). *)
Fixpoint wcsicmp_body (s1 s2 : wstring) : Z :=
  match s1, s2 with
  | [], [] => 0
  | [], c2 :: _ => 0 - towlower c2
  | c1 :: _, [] => towlower c1
  | c1 :: s1', c2 :: s2' =>
      if towlower c1 =? towlower c2 then wcsicmp_body s1' s2'
      else towlower c1 - towlower c2
  end.

Definition _NLSCMPERROR : Z := 2147483647.

(** What a call into the C runtime can do. *)
Inductive crt (A : Type) : Type :=
| Ret (a : A)
| InvalidParameter.   (* the invalid-parameter handler ended the process *)
Arguments Ret {A} a.
Arguments InvalidParameter {A}.

(** [_wcsicmp(string1, string2)].  Both arguments are pointers; [None]
    is the null pointer.  The CRT validates them: on a null pointer the
    invalid-parameter handler runs, which by default ends the process;
    when a handler that returns is installed ([continues = true]) the
    function returns [_NLSCMPERROR]. *)
Definition _wcsicmp (continues : bool) (s1 s2 : option wstring) : crt Z :=
  match s1, s2 with
  | Some a, Some b => Ret (wcsicmp_body a b)
  | _, _ => if continues then Ret _NLSCMPERROR else InvalidParameter
  end.

(** Case-insensitive equality of two texts, the relation the
    specification speaks of. *)
Definition ci_equal (a b : wstring) : Prop := map towlower a = map towlower b.

End Wstr.


(** ** The snapshot enumerator: [Process::EnumByNameOrPID] *)

Module Enum.
Import Nt Wstr.

(** *** Kernel records (transient, read through [reinterpret_cast]) *)

(** One entry of the inline array [pInfo->Threads]; only the fields the
    enumerator reads.  [CreateTime.QuadPart] is a signed 64-bit value. *)
Record SYSTEM_THREAD : Type := {
  CreateTime : Z;
  StartAddress : Z;
  UniqueThread : Z
}.

(** [_SYSTEM_PROCESS_INFORMATION_T<DWORD_PTR>], only the fields the
    enumerator reads.  [ImageName_Buffer = None] is a null
    [ImageName.Buffer]; [Threads] is the inline array, read at the index
    the loop asks for. *)
Record SYSTEM_PROCESS_INFORMATION : Type := {
  NextEntryOffset : Z;
  NumberOfThreads : nat;
  ImageName_Buffer : option wstring;
  UniqueProcessId : Z;
  Threads : nat -> SYSTEM_THREAD
}.

(** What the bytes at a byte offset from the start of the buffer read as.
    The type is total on purpose: the cast accepts any address. *)
Definition memory := Z -> SYSTEM_PROCESS_INFORMATION.

(** *** Results *)

(** Modelled from the spec: [ThreadInfo] and [ProcessInfo] are declared
    in Process.h, which is not part of the sources; section 3 gives their
    fields, with [isMainThread] a derived flag that a freshly constructed
    [ThreadInfo] does not carry. *)
Record ThreadInfo : Type := {
  tid : Z;
  startAddress : Z;
  mainThread : bool
}.

Record ProcessInfo : Type := {
  pid : Z;
  imageName : wstring;
  threads : list ThreadInfo
}.

Definition set_mainThread (t : ThreadInfo) : ThreadInfo :=
  {| tid := tid t; startAddress := startAddress t; mainThread := true |}.

(** *** The thread loop (lines 300-323) *)

Record thread_loop : Type := {
  minTime : Z;
  mainIdx : nat;
  acc : list ThreadInfo
}.

(** [int64_t minTime = 0xFFFFFFFFFFFFFFFF; ULONG mainIdx = 0;] *)
Definition thread_loop_init : thread_loop :=
  {| minTime := to_int64 0xFFFFFFFFFFFFFFFF; mainIdx := 0%nat; acc := [] |}.

(** One iteration of the loop body at index [i]. *)
Definition thread_loop_body (pInfo : SYSTEM_PROCESS_INFORMATION)
    (st : thread_loop) (i : nat) : thread_loop :=
  let thd := Threads pInfo i in
  let tinfo := {| tid := to_uint32 (UniqueThread thd);
                  startAddress := StartAddress thd;
                  mainThread := false |} in
  let newMin := CreateTime thd <? minTime st in
  let minTime' := if newMin then CreateTime thd else minTime st in
  let mainIdx' := if newMin then i else mainIdx st in
  (* info.threads.emplace_back( tinfo ); info.threads[mainIdx].mainThread = true; *)
  {| minTime := minTime';
     mainIdx := mainIdx';
     acc := alter set_mainThread mainIdx' (acc st ++ [tinfo]) |}.

(** [for (ULONG i = 0; i < pInfo->NumberOfThreads; i++)] *)
Definition thread_loop_run (pInfo : SYSTEM_PROCESS_INFORMATION) : thread_loop :=
  foldl (thread_loop_body pInfo) thread_loop_init (seq 0 (NumberOfThreads pInfo)).

(** Lines 292-323: the [ProcessInfo] built for a selected record. *)
Definition make_info (includeThreads : bool)
    (pInfo : SYSTEM_PROCESS_INFORMATION) : ProcessInfo :=
  {| pid := to_uint32 (UniqueProcessId pInfo);
     imageName := match ImageName_Buffer pInfo with
                  | Some s => s
                  | None => []
                  end;
     threads := if includeThreads then acc (thread_loop_run pInfo) else [] |}.

(** *** The selection test (lines 287-290), in evaluation order *)

Definition selected (continues : bool) (fpid : Z) (name : wstring)
    (pInfo : SYSTEM_PROCESS_INFORMATION) : crt bool :=
  if UniqueProcessId pInfo =? 0 then Ret false
  else if empty name && (fpid =? 0) then Ret true
  else match _wcsicmp continues (Some (c_str name)) (ImageName_Buffer pInfo) with
       | InvalidParameter => InvalidParameter
       | Ret r => Ret ((r =? 0) || (fpid =? UniqueProcessId pInfo))
       end.

(** *** The record walk (lines 284-332) *)

Inductive outcome (A : Type) : Type :=
| Returned (a : A)
| Aborted        (* ended inside the C runtime *)
| OutOfFuel.     (* the loop did not reach its [break] within the fuel *)
Arguments Returned {A} a.
Arguments Aborted {A}.
Arguments OutOfFuel {A}.

(** The walk returns what it found together with the byte offsets it
    dereferenced, in order.  The cursor is kept as an offset from the
    start of the buffer; the wrap-around of a machine pointer is not part
    of the model. *)
Fixpoint walk (fuel : nat) (continues : bool) (fpid : Z) (name : wstring)
    (includeThreads : bool) (mem : memory) (cur : Z)
    (found : list ProcessInfo) : outcome (list ProcessInfo) * list Z :=
  match fuel with
  | O => (OutOfFuel, [])
  | S fuel' =>
      let pInfo := mem cur in
      match selected continues fpid name pInfo with
      | InvalidParameter => (Aborted, [cur])
      | Ret sel =>
          let found' :=
            if sel then found ++ [make_info includeThreads pInfo] else found in
          if NextEntryOffset pInfo =? 0 then (Returned found', [cur])
          else
            let '(r, offs) :=
              walk fuel' continues fpid name includeThreads mem
                   (cur + NextEntryOffset pInfo) found' in
            (r, cur :: offs)
      end
  end.

(** *** The whole operation (lines 255-339) *)

(** Where [buffer] points. *)
Inductive pointer : Type :=
| tmpbuf                  (* the 0x100-byte array on the stack *)
| VirtualMem (base : Z)   (* a region returned by [VirtualAlloc] *)
| nullptr.                (* [VirtualAlloc] returned NULL *)

(** Calls that leave the function, and the dereferences of the walk. *)
Inductive event : Type :=
| Query (infoClass : Z) (buffer : pointer) (bufSize : Z)
| Alloc (size : Z) (result : pointer)
| Free (buffer : pointer)
| Deref (buffer : pointer) (offset : Z).

Record query_reply : Type := {
  q_status : NTSTATUS;
  q_returnLength : Z;
  q_written : memory
}.

(** The environment of one call: the reply of the [n]-th
    [NtQuerySystemInformation] call to its arguments, the result of
    [VirtualAlloc] for a size, and the CRT's invalid-parameter policy. *)
Record OS : Type := {
  NtQuerySystemInformation : nat -> pointer -> Z -> query_reply;
  VirtualAlloc : Z -> option Z;
  invalid_parameter_continues : bool
}.

(** Modelled from the spec: [ProcessInfo::operator<] is declared in
    Process.h, which is not part of the sources; section 3 says the
    records are ordered by pid and step 5 sorts ascending by it. *)
Definition ProcessInfo_le (a b : ProcessInfo) : Prop := pid a <= pid b.

#[global] Instance ProcessInfo_le_dec : RelDecision ProcessInfo_le.
Proof. intros a b. unfold ProcessInfo_le. apply Z_le_dec. Defined.

Definition sort (l : list ProcessInfo) : list ProcessInfo :=
  merge_sort ProcessInfo_le l.

(** Lines 283-338: parse, sort, release, return. *)
Definition parse (fuel : nat) (os : OS) (fpid : Z) (name : wstring)
    (includeThreads : bool) (buffer : pointer) (mem : memory)
    (status : NTSTATUS) : outcome (NTSTATUS * list ProcessInfo) * list event :=
  let '(r, offs) :=
    walk fuel (invalid_parameter_continues os) fpid name includeThreads mem 0 [] in
  let derefs := map (Deref buffer) offs in
  match r with
  | Returned found => (Returned (status, sort found), derefs ++ [Free buffer])
  | Aborted => (Aborted, derefs)
  | OutOfFuel => (OutOfFuel, derefs)
  end.

Definition EnumByNameOrPID (fuel : nat) (os : OS) (fpid : Z) (name : wstring)
    (includeThreads : bool) : outcome (NTSTATUS * list ProcessInfo) * list event :=
  let bufSize := 0x100 in
  let buffer := tmpbuf in
  let r1 := NtQuerySystemInformation os 0%nat buffer bufSize in
  let ev1 := [Query 57 buffer bufSize] in
  if NT_SUCCESS (q_status r1) then
    let '(r, evs) :=
      parse fuel os fpid name includeThreads buffer (q_written r1) (q_status r1) in
    (r, ev1 ++ evs)
  else
    let bufSize := q_returnLength r1 in
    let buffer := match VirtualAlloc os bufSize with
                  | Some base => VirtualMem base
                  | None => nullptr
                  end in
    let r2 := NtQuerySystemInformation os 1%nat buffer bufSize in
    let ev2 := ev1 ++ [Alloc bufSize buffer; Query 57 buffer bufSize] in
    if NT_SUCCESS (q_status r2) then
      let '(r, evs) :=
        parse fuel os fpid name includeThreads buffer (q_written r2) (q_status r2) in
      (r, ev2 ++ evs)
    else
      (Returned (q_status r2, []), ev2 ++ [Free buffer]).

(** *** Reading a log *)

Definition queries (tr : list event) : list (pointer * Z) :=
  omap (fun e => match e with Query _ b n => Some (b, n) | _ => None end) tr.

Definition allocs (tr : list event) : list (Z * pointer) :=
  omap (fun e => match e with Alloc n p => Some (n, p) | _ => None end) tr.

Definition frees (tr : list event) : list pointer :=
  omap (fun e => match e with Free p => Some p | _ => None end) tr.

Definition derefs (tr : list event) : list Z :=
  omap (fun e => match e with Deref _ o => Some o | _ => None end) tr.

(** The chain of records that starts at [cur]: each link is the previous
    offset plus that record's [NextEntryOffset]; the last record has a
    zero [NextEntryOffset]. *)
Inductive chain (mem : memory) : Z -> list Z -> Prop :=
| chain_last cur :
    NextEntryOffset (mem cur) = 0 -> chain mem cur [cur]
| chain_next cur offs :
    NextEntryOffset (mem cur) <> 0 ->
    chain mem (cur + NextEntryOffset (mem cur)) offs ->
    chain mem cur (cur :: offs).

(** The [ThreadInfo] pushed for index [i], before any marking. *)
Definition raw_thread (pInfo : SYSTEM_PROCESS_INFORMATION) (i : nat) : ThreadInfo :=
  {| tid := to_uint32 (UniqueThread (Threads pInfo i));
     startAddress := StartAddress (Threads pInfo i);
     mainThread := false |}.

End Enum.


(** ** The lifecycle surface: [Attach], [CreateAndAttach], [Detach],
       [EnsureInit], [Terminate] *)

Module Lifecycle.
Import Nt Wstr.

(** The six owned subsystems that [Detach] resets. *)
Inductive subsystem : Type :=
| Memory      (* _memory  *)
| Modules     (* _modules *)
| Remote      (* _remote  *)
| MMap        (* _mmap    *)
| Threads     (* _threads *)
| Hooks.      (* _hooks   *)

(** [PROCESS_INFORMATION], the two handles [CreateProcessW] fills in. *)
Record PROCESS_INFORMATION : Type := {
  pi_hProcess : HANDLE;
  pi_hThread : HANDLE
}.

Definition CREATE_SUSPENDED : Z := 0x4.

(** Every call the lifecycle code makes outside itself, as logged. *)
Inductive call : Type :=
| Reset (s : subsystem)
| CoreClose
| CoreOpenPid (pid access : Z)
| CoreOpenHandle (h : HANDLE)
| NativeLdrInit
| CreateRPCEnvironment (noHooks noContextSwitch : bool)
| CreateProcessW (path cmdLine : wstring) (flags : Z)
    (currentDir : option wstring) (pStartup : option Z)
| GetModule (name : string)
| GetExport (hMod : Z) (name : string)
| ExecDirect (pProc arg : Z)
| ResumeThread (h : HANDLE)
| CloseHandle (h : HANDLE)
| TerminateProcess (h : HANDLE) (code : Z).

(** The state the calls act on: the handle core [_core], the calling
    thread's last status value (what [LastNtStatus()] reads), and the log. *)
Record World : Type := {
  hProcess : HANDLE;
  core_pid : Z;
  LastStatusValue : NTSTATUS;
  log : list call
}.

(** How the collaborators and the OS answer.  An open answers with its
    status and, for use on success, the handle (by pid) or the pid (by
    handle) it resolved.  The two calls whose failure the code reports
    through [LastNtStatus()] get the old last status and give the new one. *)
Record Env : Type := {
  open_pid_result : Z -> Z -> NTSTATUS * HANDLE;
  open_handle_result : HANDLE -> NTSTATUS * Z;
  nativeLdr_Init_result : NTSTATUS;
  CreateRPCEnvironment_result : bool -> bool -> NTSTATUS;
  CreateProcessW_result :
    wstring -> wstring -> NTSTATUS -> option PROCESS_INFORMATION * NTSTATUS;
  GetModule_result : string -> Z;
  GetExport_result : Z -> string -> Z;
  ExecDirect_result : Z -> Z -> NTSTATUS;
  ResumeThread_result : HANDLE -> Z;
  TerminateProcess_result : HANDLE -> Z -> NTSTATUS -> bool * NTSTATUS
}.

(** *** A state monad over [World] *)

Definition M (A : Type) : Type := World -> A * World.

Definition ret {A : Type} (a : A) : M A := fun w => (a, w).

Definition bind {A B : Type} (m : M A) (k : A -> M B) : M B :=
  fun w => let '(a, w') := m w in k a w'.

Notation "x <- m ;; k" := (bind m (fun x => k))
  (at level 100, m at next level, right associativity).
Notation "m ;; k" := (bind m (fun _ => k))
  (at level 100, right associativity).

Definition emit (c : call) : M unit :=
  fun w => (tt, {| hProcess := hProcess w; core_pid := core_pid w;
                   LastStatusValue := LastStatusValue w;
                   log := log w ++ [c] |}).

Definition set_core (h : HANDLE) (p : Z) : M unit :=
  fun w => (tt, {| hProcess := h; core_pid := p;
                   LastStatusValue := LastStatusValue w; log := log w |}).

Definition set_last_status (s : NTSTATUS) : M unit :=
  fun w => (tt, {| hProcess := hProcess w; core_pid := core_pid w;
                   LastStatusValue := s; log := log w |}).

Definition get_handle : M HANDLE := fun w => (hProcess w, w).

(** Modelled from the spec: [LastNtStatus()] is declared outside the
    sources; section 7 has a failed OS call surface as a status code that
    carries the platform error the call left behind, which is the calling
    thread's last status value. *)
Definition LastNtStatus : M NTSTATUS := fun w => (LastStatusValue w, w).

(** *** Collaborators *)

(** [_memory.reset()], [_modules.reset()], ...: section 6 gives each
    subsystem a [reset()] that returns nothing and cannot fail. *)
Definition reset (s : subsystem) : M unit := emit (Reset s).

(** Modelled from the spec: the handle core [ProcessCore] (ProcessCore.h
    and ProcessCore.cpp are not part of the sources).  Section 3: closing
    sets the handle to the null sentinel; section 4.3: [Close] is safe on a
    closed core, [OpenByPid] and [OpenByHandle] return a status, a
    successful open populates the core, [OpenByHandle] taking ownership of
    the handle it is given; a failed open populates nothing. *)
Definition core_Close : M unit :=
  emit CoreClose ;; set_core NULL 0.

Definition core_Open_pid (e : Env) (pid access : Z) : M NTSTATUS :=
  emit (CoreOpenPid pid access) ;;
  let '(status, h) := open_pid_result e pid access in
  (if NT_SUCCESS status then set_core h pid else ret tt) ;;
  ret status.

Definition core_Open_handle (e : Env) (h : HANDLE) : M NTSTATUS :=
  emit (CoreOpenHandle h) ;;
  let '(status, pid) := open_handle_result e h in
  (if NT_SUCCESS status then set_core h pid else ret tt) ;;
  ret status.

Definition nativeLdr_Init (e : Env) : M NTSTATUS :=
  emit NativeLdrInit ;; ret (nativeLdr_Init_result e).

Definition remote_CreateRPCEnvironment (e : Env) (a b : bool) : M NTSTATUS :=
  emit (CreateRPCEnvironment a b) ;; ret (CreateRPCEnvironment_result e a b).

Definition modules_GetModule (e : Env) (name : string) : M Z :=
  emit (GetModule name) ;; ret (GetModule_result e name).

Definition modules_GetExport (e : Env) (hMod : Z) (name : string) : M Z :=
  emit (GetExport hMod name) ;; ret (GetExport_result e hMod name).

Definition remote_ExecDirect (e : Env) (pProc arg : Z) : M NTSTATUS :=
  emit (ExecDirect pProc arg) ;; ret (ExecDirect_result e pProc arg).

(** *** Win32 *)

Definition os_CreateProcessW (e : Env) (path cmdLine : wstring)
    (currentDir : option wstring) (pStartup : option Z)
  : M (option PROCESS_INFORMATION) :=
  emit (CreateProcessW path cmdLine CREATE_SUSPENDED currentDir pStartup) ;;
  old <- LastNtStatus ;;
  let '(r, new) := CreateProcessW_result e path cmdLine old in
  set_last_status new ;;
  ret r.

Definition os_ResumeThread (e : Env) (h : HANDLE) : M Z :=
  emit (ResumeThread h) ;; ret (ResumeThread_result e h).

Definition os_CloseHandle (h : HANDLE) : M unit := emit (CloseHandle h).

Definition os_TerminateProcess (e : Env) (h : HANDLE) (code : Z) : M bool :=
  emit (TerminateProcess h code) ;;
  old <- LastNtStatus ;;
  let '(r, new) := TerminateProcess_result e h code old in
  set_last_status new ;;
  ret r.

(** *** The methods of [Process] *)

(** Lines 128-140. *)
Definition Detach : M NTSTATUS :=
  reset Memory ;;
  reset Modules ;;
  reset Remote ;;
  reset MMap ;;
  reset Threads ;;
  reset Hooks ;;
  core_Close ;;
  ret STATUS_SUCCESS.

(** Lines 146-153. *)
Definition EnsureInit (e : Env) : M NTSTATUS :=
  hMod <- modules_GetModule e "ntdll.dll" ;;
  pProc <- modules_GetExport e hMod "NtYieldExecution" ;;
  if negb (pProc =? 0) then remote_ExecDirect e pProc 0
  else ret STATUS_NOT_FOUND.

(** Lines 36-48. *)
Definition Attach (e : Env) (pid access : Z) : M NTSTATUS :=
  Detach ;;
  status <- core_Open_pid e pid access ;;
  (if NT_SUCCESS status then
     nativeLdr_Init e ;;
     remote_CreateRPCEnvironment e false false ;;
     ret tt
   else ret tt) ;;
  ret status.

(** Lines 55-67. *)
Definition Attach_handle (e : Env) (hProc : HANDLE) : M NTSTATUS :=
  Detach ;;
  status <- core_Open_handle e hProc ;;
  (if NT_SUCCESS status then
     nativeLdr_Init e ;;
     remote_CreateRPCEnvironment e false false ;;
     ret tt
   else ret tt) ;;
  ret status.

(** Lines 79-122.  [pStartup = None] is the null pointer, replaced by the
    address of the local zeroed [si]; the OS is handed [path.c_str()] and
    [cmdLine.c_str()]. *)
Definition CreateAndAttach (e : Env) (path : wstring)
    (suspended forceInit : bool) (cmdLine : wstring)
    (currentDir : option wstring) (pStartup : option Z) : M NTSTATUS :=
  Detach ;;
  created <- os_CreateProcessW e (c_str path) (c_str cmdLine) currentDir pStartup ;;
  match created with
  | None => LastNtStatus
  | Some pi =>
      status <- core_Open_handle e (pi_hProcess pi) ;;
      (if NT_SUCCESS status then
         nativeLdr_Init e ;;
         if suspended then
           if forceInit then EnsureInit e ;; ret tt else ret tt
         else os_ResumeThread e (pi_hThread pi) ;; ret tt
       else ret tt) ;;
      os_CloseHandle (pi_hThread pi) ;;
      ret status
  end.

(** Lines 175-179. *)
Definition Terminate (e : Env) (code : Z) : M NTSTATUS :=
  h <- get_handle ;;
  os_TerminateProcess e h code ;;
  LastNtStatus.

(** The orchestrator is Detached when its core holds no handle. *)
Definition Detached (w : World) : Prop := hProcess w = NULL.

(** The calls a run adds to the log. *)
Definition calls {A : Type} (m : M A) (w : World) : list call :=
  drop (length (log w)) (log (snd (m w))).

(** The calls of [Detach], in program order. *)
Definition detach_calls : list call :=
  [Reset Memory; Reset Modules; Reset Remote; Reset MMap; Reset Threads;
   Reset Hooks; CoreClose].

(** The calls of [EnsureInit], in program order. *)
Definition EnsureInit_calls (e : Env) : list call :=
  let hMod := GetModule_result e "ntdll.dll" in
  let pProc := GetExport_result e hMod "NtYieldExecution" in
  [GetModule "ntdll.dll"; GetExport hMod "NtYieldExecution"]
  ++ (if negb (pProc =? 0) then [ExecDirect pProc 0] else []).

(** [e] with other answers from the two post-attach steps. *)
Definition with_post_results (e : Env) (init : NTSTATUS)
    (rpc : bool -> bool -> NTSTATUS) : Env :=
  {| open_pid_result := open_pid_result e;
     open_handle_result := open_handle_result e;
     nativeLdr_Init_result := init;
     CreateRPCEnvironment_result := rpc;
     CreateProcessW_result := CreateProcessW_result e;
     GetModule_result := GetModule_result e;
     GetExport_result := GetExport_result e;
     ExecDirect_result := ExecDirect_result e;
     ResumeThread_result := ResumeThread_result e;
     TerminateProcess_result := TerminateProcess_result e |}.

End Lifecycle.


(** ** Concrete snapshots used below *)

Module Samples.
Import Nt Wstr Enum.

Definition thread_at (time id : Z) : SYSTEM_THREAD :=
  {| CreateTime := time; StartAddress := 0x401000; UniqueThread := id |}.

Definition inline_threads (l : list SYSTEM_THREAD) : nat -> SYSTEM_THREAD :=
  fun i => nth i l (thread_at 0 0).

Definition process_record (next id : Z) (name : option wstring)
    (l : list SYSTEM_THREAD) : SYSTEM_PROCESS_INFORMATION :=
  {| NextEntryOffset := next; NumberOfThreads := length l;
     ImageName_Buffer := name; UniqueProcessId := id;
     Threads := inline_threads l |}.

(** A memory that holds [r0] at offset 0 and [r1] everywhere else. *)
Definition two_records (r0 r1 : SYSTEM_PROCESS_INFORMATION) : memory :=
  fun o => if o =? 0 then r0 else r1.

(** First call answers [s1] and asks for [len] bytes, the retry answers
    [s2]; either way the buffer reads as [mem]. *)
Definition snapshot_os (s1 : NTSTATUS) (len : Z) (s2 : NTSTATUS)
    (mem : memory) (continues : bool) : OS :=
  {| NtQuerySystemInformation := fun n _ _ =>
       {| q_status := match n with O => s1 | _ => s2 end;
          q_returnLength := len; q_written := mem |};
     VirtualAlloc := fun _ => Some 0x20000;
     invalid_parameter_continues := continues |}.

(** "a.exe" *)
Definition a_exe : wstring := [97; 46; 101; 120; 101].

(** pid 7, two threads; the second one was created first. *)
Definition late_first : SYSTEM_PROCESS_INFORMATION :=
  process_record 0 7 (Some a_exe) [thread_at 200 11; thread_at 100 12].

Definition late_first_os : OS :=
  snapshot_os STATUS_INFO_LENGTH_MISMATCH 0x400 STATUS_SUCCESS
    (fun _ => late_first) false.

(** pid 7 with a null [ImageName.Buffer]. *)
Definition nameless : SYSTEM_PROCESS_INFORMATION :=
  process_record 0 7 None [].

Definition nameless_os (continues : bool) : OS :=
  snapshot_os STATUS_INFO_LENGTH_MISMATCH 0x400 STATUS_SUCCESS
    (fun _ => nameless) continues.

(** The first call fails with a status other than the length mismatch. *)
Definition denied_os : OS :=
  snapshot_os STATUS_ACCESS_DENIED 0x40 STATUS_SUCCESS (fun _ => late_first) false.

(** Both calls fail. *)
Definition twice_failing_os : OS :=
  snapshot_os STATUS_INFO_LENGTH_MISMATCH 0x400 STATUS_ACCESS_DENIED
    (fun _ => late_first) false.

(** The first call already succeeds on the stack buffer. *)
Definition fits_os : OS :=
  snapshot_os STATUS_SUCCESS 0x100 STATUS_SUCCESS (fun _ => late_first) false.

(** The first call asks for 0x400 bytes, [VirtualAlloc] has none to give,
    and the retry on the null buffer fails. *)
Definition no_memory_os : OS :=
  {| NtQuerySystemInformation := fun n _ _ =>
       {| q_status := match n with
                      | O => STATUS_INFO_LENGTH_MISMATCH
                      | _ => STATUS_ACCESS_VIOLATION
                      end;
          q_returnLength := 0x400; q_written := fun _ => late_first |};
     VirtualAlloc := fun _ => None;
     invalid_parameter_continues := false |}.

(** A 0x200-byte snapshot whose first record points 0x1000 bytes ahead. *)
Definition stray : memory :=
  two_records (process_record 0x1000 4 (Some a_exe) []) late_first.

Definition stray_os : OS :=
  snapshot_os STATUS_INFO_LENGTH_MISMATCH 0x200 STATUS_SUCCESS stray false.

(** Two well-formed records, 0x180 bytes apart. *)
Definition pair : memory :=
  two_records (process_record 0x180 4 (Some a_exe) []) late_first.

(** An environment for the lifecycle calls: pid 4 cannot be opened;
    launching the empty path fails; launching "b" gives a process handle
    that the core refuses; every other launch gives handles 0x60 and 0x64.
    Both post-attach steps fail, and [TerminateProcess] succeeds without
    touching the last status. *)
Definition sample_env : Lifecycle.Env :=
  {| Lifecycle.open_pid_result := fun pid _ =>
       if pid =? 4 then (STATUS_ACCESS_DENIED, NULL) else (STATUS_SUCCESS, 0x50);
     Lifecycle.open_handle_result := fun h =>
       if h =? 0x70 then (STATUS_ACCESS_DENIED, 0) else (STATUS_SUCCESS, 1234);
     Lifecycle.nativeLdr_Init_result := STATUS_ACCESS_DENIED;
     Lifecycle.CreateRPCEnvironment_result := fun _ _ => STATUS_ACCESS_DENIED;
     Lifecycle.CreateProcessW_result := fun path _ old =>
       match path with
       | [] => (None, STATUS_OBJECT_NAME_NOT_FOUND)
       | [98] =>
           (Some {| Lifecycle.pi_hProcess := 0x70; Lifecycle.pi_hThread := 0x74 |}, old)
       | _ =>
           (Some {| Lifecycle.pi_hProcess := 0x60; Lifecycle.pi_hThread := 0x64 |}, old)
       end;
     Lifecycle.GetModule_result := fun _ => 0x77000000;
     Lifecycle.GetExport_result := fun _ _ => 0x77001000;
     Lifecycle.ExecDirect_result := fun _ _ => STATUS_SUCCESS;
     Lifecycle.ResumeThread_result := fun _ => 1;
     Lifecycle.TerminateProcess_result := fun _ _ old => (true, old) |}.

(** A never-attached orchestrator on a thread with a clean last status. *)
Definition fresh : Lifecycle.World :=
  {| Lifecycle.hProcess := NULL; Lifecycle.core_pid := 0;
     Lifecycle.LastStatusValue := STATUS_SUCCESS; Lifecycle.log := [] |}.

(** An attached orchestrator on a thread whose last status is a left-over
    failure of some earlier call. *)
Definition stale : Lifecycle.World :=
  {| Lifecycle.hProcess := 0x50; Lifecycle.core_pid := 1234;
     Lifecycle.LastStatusValue := STATUS_ACCESS_DENIED; Lifecycle.log := [] |}.

End Samples.


(** ** Liveness of the attached process: [Process::valid] *)

Module Liveness.
Import Nt Lifecycle.

Definition STILL_ACTIVE : Z := 259.

(** Lines 160-168.  [GetExitCodeProcess_result h] is [None] when the call
    returns FALSE and the exit code it stores otherwise.  The function
    gives its result together with the handles it passed to
    [GetExitCodeProcess], in order. *)
Definition valid (GetExitCodeProcess_result : HANDLE -> option Z)
    (w : World) : bool * list HANDLE :=
  if hProcess w =? NULL then (false, [])
  else
    match GetExitCodeProcess_result (hProcess w) with
    | None => (false, [hProcess w])
    | Some dwExitCode => (dwExitCode =? STILL_ACTIVE, [hProcess w])
    end.

End Liveness.


(** ** Privileges of the caller: [Process::GrantPriviledge] and the
       constructor *)

Module Token.
Import Nt.

Definition ERROR_NO_TOKEN : Z := 1008.
Definition ERROR_NOT_ALL_ASSIGNED : Z := 1300.
Definition TOKEN_QUERY : Z := 0x0008.
Definition TOKEN_ADJUST_PRIVILEGES : Z := 0x0020.
Definition SE_PRIVILEGE_ENABLED : Z := 0x2.
Definition SE_DEBUG_NAME : string := "SeDebugPrivilege".
Definition SE_LOAD_DRIVER_NAME : string := "SeLoadDriverPrivilege".

(** The two per-thread values the function reads back: what
    [GetLastError()] and what [LastNtStatus()] return. *)
Record TEB : Type := {
  LastErrorValue : Z;
  LastStatusValue : NTSTATUS
}.

Inductive call : Type :=
| OpenThreadToken (access : Z)
| OpenProcessToken (access : Z)
| LookupPrivilegeValue (name : string)
| AdjustTokenPrivileges (hToken : HANDLE) (luid attributes : Z)
| CloseHandle (h : HANDLE)
| NameResolveInitialize.

(** How Win32 answers: the token handle ([None] when the call returns
    FALSE), the BOOL and the LUID left in the buffer, and in every case
    the per-thread values after the call. *)
Record OS : Type := {
  OpenThreadToken_result : Z -> TEB -> option HANDLE * TEB;
  OpenProcessToken_result : Z -> TEB -> option HANDLE * TEB;
  LookupPrivilegeValue_result : string -> TEB -> bool * Z * TEB;
  AdjustTokenPrivileges_result : HANDLE -> Z -> Z -> TEB -> bool * TEB;
  CloseHandle_result : HANDLE -> TEB -> TEB
}.

(** Lines 192-199: the token that ends up in [hToken], or the early
    return. *)
Definition open_token (os : OS) (teb : TEB)
  : (HANDLE * TEB * list call) + (NTSTATUS * TEB * list call) :=
  let access := Z.lor TOKEN_QUERY TOKEN_ADJUST_PRIVILEGES in
  let '(tok, teb1) := OpenThreadToken_result os access teb in
  match tok with
  | Some hToken => inl (hToken, teb1, [OpenThreadToken access])
  | None =>
      if negb (LastErrorValue teb1 =? ERROR_NO_TOKEN) then
        inr (LastStatusValue teb1, teb1, [OpenThreadToken access])
      else
        let '(tok2, teb2) := OpenProcessToken_result os access teb1 in
        match tok2 with
        | Some hToken =>
            inl (hToken, teb2, [OpenThreadToken access; OpenProcessToken access])
        | None =>
            inr (LastStatusValue teb2, teb2,
                 [OpenThreadToken access; OpenProcessToken access])
        end
  end.

(** Lines 186-218. *)
Definition GrantPriviledge (os : OS) (name : string) (teb : TEB)
  : NTSTATUS * TEB * list call :=
  match open_token os teb with
  | inr early => early
  | inl (hToken, teb1, log1) =>
      let '(_, luid, teb2) := LookupPrivilegeValue_result os name teb1 in
      let '(ok, teb3) :=
        AdjustTokenPrivileges_result os hToken luid SE_PRIVILEGE_ENABLED teb2 in
      let log3 := log1 ++ [LookupPrivilegeValue name;
                           AdjustTokenPrivileges hToken luid SE_PRIVILEGE_ENABLED] in
      if negb ok then
        let teb4 := CloseHandle_result os hToken teb3 in
        (LastStatusValue teb4, teb4, log3 ++ [CloseHandle hToken])
      else if LastErrorValue teb3 =? ERROR_NOT_ALL_ASSIGNED then
        let teb4 := CloseHandle_result os hToken teb3 in
        (LastStatusValue teb4, teb4, log3 ++ [CloseHandle hToken])
      else
        (STATUS_SUCCESS, teb3, log3)
  end.

(** Lines 10-24, the body of the constructor. *)
Definition Process_ctor (os : OS) (teb : TEB) : TEB * list call :=
  let '(_, teb1, log1) := GrantPriviledge os SE_DEBUG_NAME teb in
  let '(_, teb2, log2) := GrantPriviledge os SE_LOAD_DRIVER_NAME teb1 in
  (teb2, log1 ++ log2 ++ [NameResolveInitialize]).

(** Reading a log. *)
Definition closed (tr : list call) : list HANDLE :=
  omap (fun c => match c with CloseHandle h => Some h | _ => None end) tr.

Definition adjusted (tr : list call) : list (HANDLE * Z) :=
  omap (fun c => match c with
                 | AdjustTokenPrivileges h luid _ => Some (h, luid)
                 | _ => None
                 end) tr.

End Token.


(** ** Enumeration through a Toolhelp snapshot: [Process::EnumByName] *)

Module Toolhelp.
Import Nt Wstr.

(** [PROCESSENTRY32W], the two fields the function reads; [szExeFile]
    holds the characters before the terminator of the array. *)
Record PROCESSENTRY32W : Type := {
  th32ProcessID : Z;
  szExeFile : wstring
}.

Inductive call : Type :=
| CreateToolhelp32Snapshot (flags pid : Z)
| Process32FirstW (hSnap : HANDLE)
| Process32NextW (hSnap : HANDLE)
| CloseHandle (h : HANDLE).

Definition TH32CS_SNAPPROCESS : Z := 0x2.

(** The snapshot the OS hands out: [None] is INVALID_HANDLE_VALUE,
    otherwise the handle and the entries that [Process32FirstW] and the
    successive [Process32NextW] copy into [tEntry] before one of them
    returns FALSE. *)
Record OS : Type := {
  CreateToolhelp32Snapshot_result : option (HANDLE * list PROCESSENTRY32W);
  invalid_parameter_continues : bool
}.

(** Line 239: the test applied to the entry in [tEntry]. *)
Definition accepts (continues : bool) (name : wstring)
    (tEntry : PROCESSENTRY32W) : crt bool :=
  if empty name then Ret true
  else match _wcsicmp continues (Some (szExeFile tEntry)) (Some (c_str name)) with
       | InvalidParameter => InvalidParameter
       | Ret r => Ret (r =? 0)
       end.

(** Lines 235-241: the loop over the entries still to come.  [fetch] is
    the call that produced the entry at the head, or FALSE at the end. *)
Fixpoint iterate (continues : bool) (name : wstring) (hSnap : HANDLE)
    (fetch : call) (entries : list PROCESSENTRY32W) (found : list Z)
  : crt (list Z) * list call :=
  match entries with
  | [] => (Ret found, [fetch])
  | tEntry :: rest =>
      match accepts continues name tEntry with
      | InvalidParameter => (InvalidParameter, [fetch])
      | Ret ok =>
          let found' := if ok then found ++ [th32ProcessID tEntry] else found in
          let '(r, log) :=
            iterate continues name hSnap (Process32NextW hSnap) rest found' in
          (r, fetch :: log)
      end
  end.

(** Lines 225-245.  [found] is the vector passed in by reference. *)
Definition EnumByName (os : OS) (name : wstring) (found : list Z)
  : crt (list Z) * list call :=
  match CreateToolhelp32Snapshot_result os with
  | None => (Ret found, [CreateToolhelp32Snapshot TH32CS_SNAPPROCESS 0])
  | Some (hProcSnap, entries) =>
      let '(r, log) :=
        iterate (invalid_parameter_continues os) name hProcSnap
                (Process32FirstW hProcSnap) entries found in
      match r with
      | Ret found' =>
          (Ret found',
           CreateToolhelp32Snapshot TH32CS_SNAPPROCESS 0 :: log
           ++ [CloseHandle hProcSnap])
      | InvalidParameter =>
          (InvalidParameter, CreateToolhelp32Snapshot TH32CS_SNAPPROCESS 0 :: log)
      end
  end.

End Toolhelp.


(** ** Further concrete inputs *)

Module MoreSamples.
Import Nt Wstr Samples.

(** "A.EXE" *)
Definition A_EXE : wstring := [65; 46; 69; 88; 69].

(** A record with an image name, 0x180 bytes before [late_first]. *)
Definition named_pair : Enum.memory :=
  two_records (process_record 0x180 4 (Some A_EXE) []) late_first.

(** An idle record (pid 0, no name) followed by [late_first]. *)
Definition idle_first : Enum.memory :=
  two_records (process_record 0x180 0 None []) late_first.

(** Like [sample_env], but ntdll.dll exports no NtYieldExecution and the
    thread cannot be resumed. *)
Definition deaf_env : Lifecycle.Env :=
  {| Lifecycle.open_pid_result := Lifecycle.open_pid_result sample_env;
     Lifecycle.open_handle_result := Lifecycle.open_handle_result sample_env;
     Lifecycle.nativeLdr_Init_result := Lifecycle.nativeLdr_Init_result sample_env;
     Lifecycle.CreateRPCEnvironment_result :=
       Lifecycle.CreateRPCEnvironment_result sample_env;
     Lifecycle.CreateProcessW_result := Lifecycle.CreateProcessW_result sample_env;
     Lifecycle.GetModule_result := fun _ => 0x77000000;
     Lifecycle.GetExport_result := fun _ _ => 0;
     Lifecycle.ExecDirect_result := fun _ _ => STATUS_ACCESS_DENIED;
     Lifecycle.ResumeThread_result := fun _ => 0xFFFFFFFF;
     Lifecycle.TerminateProcess_result :=
       Lifecycle.TerminateProcess_result sample_env |}.


(** The process behind every handle is still running. *)
Definition running : HANDLE -> option Z := fun _ => Some 259.

Definition clean_teb : Token.TEB :=
  {| Token.LastErrorValue := 0; Token.LastStatusValue := STATUS_SUCCESS |}.

(** The thread has no token of its own, the process token opens as
    0x88, every privilege is known under LUID 20 and is assigned. *)
Definition granting_os : Token.OS :=
  {| Token.OpenThreadToken_result := fun _ teb =>
       (None, {| Token.LastErrorValue := Token.ERROR_NO_TOKEN;
                 Token.LastStatusValue := to_int32 0xC000007C |});
     Token.OpenProcessToken_result := fun _ _ => (Some 0x88, clean_teb);
     Token.LookupPrivilegeValue_result := fun _ teb => (true, 20, teb);
     Token.AdjustTokenPrivileges_result := fun _ _ _ _ => (true, clean_teb);
     Token.CloseHandle_result := fun _ teb => teb |}.

(** The thread token opens as 0x90, the privilege is unknown, and the
    adjustment assigns nothing. *)
Definition stingy_os : Token.OS :=
  {| Token.OpenThreadToken_result := fun _ teb => (Some 0x90, teb);
     Token.OpenProcessToken_result := fun _ teb => (None, teb);
     Token.LookupPrivilegeValue_result := fun _ teb => (false, 0, teb);
     Token.AdjustTokenPrivileges_result := fun _ _ _ _ =>
       (true, {| Token.LastErrorValue := Token.ERROR_NOT_ALL_ASSIGNED;
                 Token.LastStatusValue := 0x106 |});
     Token.CloseHandle_result := fun _ teb => teb |}.

(** Opening the thread token is refused outright. *)
Definition refusing_os : Token.OS :=
  {| Token.OpenThreadToken_result := fun _ _ =>
       (None, {| Token.LastErrorValue := 5;
                 Token.LastStatusValue := STATUS_ACCESS_DENIED |});
     Token.OpenProcessToken_result := fun _ _ => (Some 0x88, clean_teb);
     Token.LookupPrivilegeValue_result := fun _ teb => (true, 20, teb);
     Token.AdjustTokenPrivileges_result := fun _ _ _ _ => (true, clean_teb);
     Token.CloseHandle_result := fun _ teb => teb |}.

(** A snapshot with the idle process, "a.exe" twice (once in capitals)
    and one other image. *)
Definition snapshot_os : Toolhelp.OS :=
  {| Toolhelp.CreateToolhelp32Snapshot_result :=
       Some (0x30,
             [ {| Toolhelp.th32ProcessID := 0; Toolhelp.szExeFile := [] |};
               {| Toolhelp.th32ProcessID := 7; Toolhelp.szExeFile := a_exe |};
               {| Toolhelp.th32ProcessID := 8; Toolhelp.szExeFile := [98] |};
               {| Toolhelp.th32ProcessID := 9; Toolhelp.szExeFile := A_EXE |} ]);
     Toolhelp.invalid_parameter_continues := false |}.

End MoreSamples.

(** * Properties of the enumerator *)

Section EnumFacts.
Import Nt Wstr Enum Samples.

Lemma to_int64_all_ones : to_int64 0xFFFFFFFFFFFFFFFF = -1.
Proof. reflexivity. Qed.

Lemma set_mainThread_idem t : set_mainThread (set_mainThread t) = set_mainThread t.
Proof. reflexivity. Qed.

Lemma alter_head_snoc (l : list ThreadInfo) x :
  alter set_mainThread 0%nat (alter set_mainThread 0%nat l ++ [x])
  = alter set_mainThread 0%nat (l ++ [x]).
Proof. destruct l as [|t l]; simpl; [done|]. by rewrite set_mainThread_idem. Qed.

(** With creation times that are not below -1 (every real timestamp),
    the comparison against [minTime] never succeeds: [mainIdx] stays 0
    and the first thread pushed is the one marked. *)
Lemma thread_loop_marks_first p n :
  (forall i, (i < n)%nat -> -1 <= CreateTime (Threads p i)) ->
  foldl (thread_loop_body p) thread_loop_init (seq 0 n) =
    {| minTime := -1; mainIdx := 0%nat;
       acc := alter set_mainThread 0%nat (map (raw_thread p) (seq 0 n)) |}.
Proof.
  induction n as [|n IH]; intros Hge.
  - reflexivity.
  - rewrite seq_S, foldl_snoc, IH by (intros; apply Hge; lia).
    unfold thread_loop_body; simpl.
    assert ((CreateTime (Threads p n) <? -1) = false) as ->
      by (apply Z.ltb_ge, Hge; lia).
    rewrite map_app; simpl. f_equal. apply alter_head_snoc.
Qed.

Lemma make_info_marks_first p :
  (forall i, (i < NumberOfThreads p)%nat -> -1 <= CreateTime (Threads p i)) ->
  threads (make_info true p)
  = alter set_mainThread 0%nat (map (raw_thread p) (seq 0 (NumberOfThreads p))).
Proof.
  intros H. unfold make_info, thread_loop_run; simpl.
  by rewrite thread_loop_marks_first.
Qed.

(** C1: the failing input.  For a record with two threads of which the
    second has the smaller creation time, the enumeration marks the first
    thread as main thread, not the one created earliest as the claim asks. *)
Theorem C1_marks_first_thread_not_earliest :
  fst (EnumByNameOrPID 4 late_first_os 7 [] true)
  = Returned (STATUS_SUCCESS,
      [ {| pid := 7; imageName := a_exe;
           threads := [ {| tid := 11; startAddress := 0x401000; mainThread := true |};
                        {| tid := 12; startAddress := 0x401000; mainThread := false |} ] |} ])
  /\ CreateTime (Threads late_first 1) < CreateTime (Threads late_first 0).
Proof. split; [vm_compute; reflexivity | vm_compute; reflexivity]. Qed.

(** *** Shape of a run *)

Lemma queries_app a b : queries (a ++ b) = queries a ++ queries b.
Proof. apply omap_app. Qed.

Lemma allocs_app a b : allocs (a ++ b) = allocs a ++ allocs b.
Proof. apply omap_app. Qed.

Lemma frees_app a b : frees (a ++ b) = frees a ++ frees b.
Proof. apply omap_app. Qed.

Lemma queries_derefs p offs : queries (map (Deref p) offs) = [].
Proof. induction offs; simpl; auto. Qed.

Lemma allocs_derefs p offs : allocs (map (Deref p) offs) = [].
Proof. induction offs; simpl; auto. Qed.

Lemma frees_derefs p offs : frees (map (Deref p) offs) = [].
Proof. induction offs; simpl; auto. Qed.

(** Parsing issues no query and no allocation, and releases [buffer]
    once exactly when the walk comes back. *)
Lemma parse_log fuel os fpid name thr buffer mem status :
  let '(r, evs) := parse fuel os fpid name thr buffer mem status in
  queries evs = [] /\ allocs evs = [] /\
  frees evs = match r with Returned _ => [buffer] | _ => [] end.
Proof.
  unfold parse.
  destruct (walk fuel _ fpid name thr mem 0 []) as [[found| |] offs];
    rewrite ?queries_app, ?allocs_app, ?frees_app,
            ?queries_derefs, ?allocs_derefs, ?frees_derefs; auto.
Qed.

(** Whenever the operation returns, it has released exactly one buffer,
    the one the last query wrote to: the region it allocated when it
    allocated one, otherwise [tmpbuf]. *)
Lemma release_once_on_return fuel os fpid name thr res :
  fst (EnumByNameOrPID fuel os fpid name thr) = Returned res ->
  let tr := snd (EnumByNameOrPID fuel os fpid name thr) in
  (allocs tr = [] /\ frees tr = [tmpbuf]) \/
  (exists n buffer, allocs tr = [(n, buffer)] /\ frees tr = [buffer]).
Proof.
  unfold EnumByNameOrPID.
  destruct (NT_SUCCESS (q_status (NtQuerySystemInformation os 0%nat tmpbuf 256))).
  - pose proof (parse_log fuel os fpid name thr tmpbuf
      (q_written (NtQuerySystemInformation os 0%nat tmpbuf 256))
      (q_status (NtQuerySystemInformation os 0%nat tmpbuf 256))) as P.
    destruct (parse _ _ _ _ _ _ _ _) as [r evs]; cbn [fst snd].
    intros ->. destruct P as (_ & Ha & Hf). left.
    rewrite allocs_app, frees_app, Ha, Hf. done.
  - set (len := q_returnLength (NtQuerySystemInformation os 0%nat tmpbuf 256)).
    set (buffer := match VirtualAlloc os len with
                   | Some base => VirtualMem base | None => nullptr end).
    destruct (NT_SUCCESS (q_status (NtQuerySystemInformation os 1%nat buffer len))).
    + pose proof (parse_log fuel os fpid name thr buffer
        (q_written (NtQuerySystemInformation os 1%nat buffer len))
        (q_status (NtQuerySystemInformation os 1%nat buffer len))) as P.
      destruct (parse _ _ _ _ _ _ _ _) as [r evs]; cbn [fst snd].
      intros ->. destruct P as (_ & Ha & Hf). right. exists len, buffer.
      rewrite !allocs_app, !frees_app, Ha, Hf. done.
    + simpl. intros _. right. exists len, buffer. done.
Qed.

(** C2 (as amended): the first query uses the 0x100-byte stack buffer;
    the operation allocates and queries a second time exactly when the
    first status is not a success status, whatever the failure, with a
    buffer of exactly the returned length; there is never a third query,
    and a failure of the second query is returned as the result. *)
Theorem C2_retry_on_any_failure fuel os fpid name thr :
  let r1 := NtQuerySystemInformation os 0%nat tmpbuf 0x100 in
  let run := EnumByNameOrPID fuel os fpid name thr in
  (exists rest, snd run = Query 57 tmpbuf 0x100 :: rest) /\
  (length (queries (snd run)) = 2%nat <-> NT_SUCCESS (q_status r1) = false) /\
  (NT_SUCCESS (q_status r1) = true ->
     queries (snd run) = [(tmpbuf, 0x100)] /\ allocs (snd run) = []) /\
  (NT_SUCCESS (q_status r1) = false ->
     exists buffer,
       let r2 := NtQuerySystemInformation os 1%nat buffer (q_returnLength r1) in
       allocs (snd run) = [(q_returnLength r1, buffer)] /\
       queries (snd run) = [(tmpbuf, 0x100); (buffer, q_returnLength r1)] /\
       (NT_SUCCESS (q_status r2) = false ->
          fst run = Returned (q_status r2, []))).
Proof.
  cbv zeta. unfold EnumByNameOrPID.
  destruct (NT_SUCCESS (q_status (NtQuerySystemInformation os 0%nat tmpbuf 256))) eqn:E1.
  - pose proof (parse_log fuel os fpid name thr tmpbuf
      (q_written (NtQuerySystemInformation os 0%nat tmpbuf 256))
      (q_status (NtQuerySystemInformation os 0%nat tmpbuf 256))) as P.
    destruct (parse _ _ _ _ _ _ _ _) as [r evs]; cbn [fst snd].
    destruct P as (Hq & Ha & _).
    rewrite queries_app, allocs_app, Hq, Ha. simpl.
    split; [eauto|]. split; [split; discriminate|]. split; [done|discriminate].
  - set (len := q_returnLength (NtQuerySystemInformation os 0%nat tmpbuf 256)).
    set (buffer := match VirtualAlloc os len with
                   | Some base => VirtualMem base | None => nullptr end).
    destruct (NT_SUCCESS (q_status (NtQuerySystemInformation os 1%nat buffer len))) eqn:E2.
    + pose proof (parse_log fuel os fpid name thr buffer
        (q_written (NtQuerySystemInformation os 1%nat buffer len))
        (q_status (NtQuerySystemInformation os 1%nat buffer len))) as P.
      destruct (parse _ _ _ _ _ _ _ _) as [r evs]; cbn [fst snd].
      destruct P as (Hq & Ha & _).
      rewrite !queries_app, !allocs_app, Hq, Ha. simpl.
      split; [eauto|]. split; [done|]. split; [discriminate|].
      intros _. exists buffer. rewrite E2. split; [done|]. split; [done|discriminate].
    + cbn [fst snd]. simpl.
      split; [eauto|]. split; [done|]. split; [discriminate|].
      intros _. exists buffer. rewrite E2. done.
Qed.

Lemma C2_retry_on_any_failure_witness :
  NT_SUCCESS (q_status (NtQuerySystemInformation twice_failing_os 0%nat tmpbuf 0x100)) = false /\
  fst (EnumByNameOrPID 4 twice_failing_os 0 [] false) = Returned (STATUS_ACCESS_DENIED, []).
Proof.
  split; [reflexivity|].
  destruct (C2_retry_on_any_failure 4 twice_failing_os 0 [] false) as (_ & _ & _ & H).
  destruct H as (buffer & _ & _ & H); [reflexivity|].
  rewrite H; reflexivity.
Defined.

(** C2: the claim as stated fails.  The first call answers
    STATUS_ACCESS_DENIED, which is not the buffer-too-small status; the
    operation still allocates the returned length, queries again, and does
    not end with the first error. *)
Lemma C2_counterexample_retry_after_other_failure :
  let r1 := NtQuerySystemInformation denied_os 0%nat tmpbuf 0x100 in
  let run := EnumByNameOrPID 4 denied_os 0 [] false in
  q_status r1 = STATUS_ACCESS_DENIED /\
  ~ (length (queries (snd run)) = 2%nat <-> q_status r1 = STATUS_INFO_LENGTH_MISMATCH) /\
  ~ (fst run = Returned (q_status r1, []) /\ length (queries (snd run)) = 1%nat).
Proof.
  cbv zeta. split; [reflexivity|]. split.
  - intros [H _]. specialize (H eq_refl). vm_compute in H. discriminate.
  - intros [_ H]. vm_compute in H. discriminate.
Qed.

(** C3: the failing input.  When the first query already succeeds, no
    region is allocated, and the release at the end is issued on the
    stack array [tmpbuf]. *)
Theorem C3_release_of_stack_buffer :
  let run := EnumByNameOrPID 4 fits_os 0 [] false in
  snd run = [Query 57 tmpbuf 0x100; Deref tmpbuf 0; Free tmpbuf] /\
  allocs (snd run) = [] /\
  frees (snd run) = [tmpbuf].
Proof. cbv zeta. repeat split; vm_compute; reflexivity. Qed.

(** The same unguarded release on the failure path: after a failed
    [VirtualAlloc] the null pointer is what gets released. *)
Lemma release_of_null_buffer :
  EnumByNameOrPID 4 no_memory_os 0 [] false
  = (Returned (STATUS_ACCESS_VIOLATION, []),
     [Query 57 tmpbuf 0x100; Alloc 0x400 nullptr; Query 57 nullptr 0x400;
      Free nullptr]).
Proof. vm_compute; reflexivity. Qed.

(** *** The selection test *)

Lemma towlower_zero c : towlower c = 0 <-> c = 0.
Proof. unfold towlower. destruct (_ && _) eqn:E; [|done]. lia. Qed.

Lemma wcsicmp_body_zero a : forall b,
  Forall (fun c => c <> 0) a -> Forall (fun c => c <> 0) b ->
  (wcsicmp_body a b = 0 <-> ci_equal a b).
Proof.
  unfold ci_equal.
  induction a as [|c1 a IH]; intros [|c2 b] Ha Hb; simpl.
  - done.
  - inversion_clear Hb as [|? ? Hc _].
    split; [|discriminate]. intros H. exfalso. apply Hc, towlower_zero. lia.
  - inversion_clear Ha as [|? ? Hc _].
    split; [|discriminate]. intros H. exfalso. by apply Hc, towlower_zero.
  - inversion_clear Ha as [|? ? _ Ha']. inversion_clear Hb as [|? ? _ Hb'].
    destruct (towlower c1 =? towlower c2) eqn:E.
    + apply Z.eqb_eq in E. rewrite IH, E by done. split; [congruence|].
      intros H. by injection H.
    + apply Z.eqb_neq in E. split; [lia|]. intros H. by injection H.
Qed.

Lemma c_str_no_terminator s : Forall (fun c => c <> 0) (c_str s).
Proof.
  induction s as [|c s IH]; simpl; [constructor|].
  destruct (c =? 0) eqn:E; [constructor|].
  apply Z.eqb_neq in E. by constructor.
Qed.



(** A record without an image name reaches [_wcsicmp] with a null
    pointer as soon as one of the filters is set. *)
Lemma selected_without_name continues fpid name p :
  ImageName_Buffer p = None ->
  UniqueProcessId p <> 0 ->
  empty name && (fpid =? 0) = false ->
  selected continues fpid name p =
    if continues then Ret (fpid =? UniqueProcessId p) else InvalidParameter.
Proof.
  intros Hs Hp He. unfold selected. apply Z.eqb_neq in Hp.
  rewrite Hs, Hp, He. by destruct continues.
Qed.

(** C4: the failing input.  The snapshot holds one record, pid 7, whose
    image-name pointer is null; the filters are pid 5 and the empty name.
    Read as empty text the name equals the filter name and the claim
    includes the record.  The code hands the null pointer to [_wcsicmp]:
    with the default invalid-parameter handler the call does not come
    back, and with a handler that returns the record is left out. *)
Theorem C4_null_image_name_reaches_wcsicmp :
  ImageName_Buffer nameless = None /\
  UniqueProcessId nameless = 7 /\
  fst (EnumByNameOrPID 4 (nameless_os false) 5 [] false) = Aborted /\
  fst (EnumByNameOrPID 4 (nameless_os true) 5 [] false)
    = Returned (STATUS_SUCCESS, []).
Proof. repeat split; vm_compute; reflexivity. Qed.

(** *** The record walk *)

(** If the walk comes back, the offsets it dereferenced are the chain
    from [cur]: nothing but the records' own [NextEntryOffset] decides
    where it reads. *)
Lemma walk_returned_chain fuel continues fpid name thr mem :
  forall cur found found' offs,
  walk fuel continues fpid name thr mem cur found = (Returned found', offs) ->
  chain mem cur offs.
Proof.
  induction fuel as [|fuel IH]; intros cur found found' offs; simpl; [discriminate|].
  destruct (selected continues fpid name (mem cur)) as [sel|]; [|discriminate].
  destruct (NextEntryOffset (mem cur) =? 0) eqn:E.
  - intros [= _ <-]. apply chain_last. by apply Z.eqb_eq.
  - destruct (walk fuel _ _ _ _ _ _ _) as [r offs'] eqn:W.
    intros [= -> <-]. apply chain_next; [by apply Z.eqb_neq|]. eapply IH, W.
Qed.

(** C5 (as amended): the walk takes every [NextEntryOffset] as it finds
    it.  Along the chain of records that starts at [cur] it dereferences
    exactly the offsets of the chain, each the previous one plus that
    record's [NextEntryOffset], and it stops and returns at the record
    whose [NextEntryOffset] is zero. *)
Theorem C5_walk_follows_offsets continues fpid name thr mem offs :
  forall cur,
  chain mem cur offs ->
  Forall (fun o => selected continues fpid name (mem o) <> InvalidParameter) offs ->
  forall fuel found, (length offs <= fuel)%nat ->
  exists found',
    walk fuel continues fpid name thr mem cur found = (Returned found', offs).
Proof.
  induction 1 as [cur Hz|cur offs Hnz Hc IH]; intros Hsel fuel found Hfuel.
  - destruct fuel as [|fuel]; [simpl in Hfuel; lia|]. simpl.
    inversion_clear Hsel as [|? ? Hs _].
    destruct (selected continues fpid name (mem cur)) as [sel|]; [|done].
    apply Z.eqb_eq in Hz. rewrite Hz. eauto.
  - destruct fuel as [|fuel]; [simpl in Hfuel; lia|]. simpl.
    inversion_clear Hsel as [|? ? Hs Hsel'].
    destruct (selected continues fpid name (mem cur)) as [sel|]; [|done].
    apply Z.eqb_neq in Hnz. rewrite Hnz.
    edestruct (IH Hsel' fuel) as [found' ->]; [simpl in Hfuel; lia|]. eauto.
Qed.

Lemma C5_walk_follows_offsets_witness :
  chain pair 0 [0; 0x180] /\
  exists found', walk 2 false 0 [] false pair 0 [] = (Returned found', [0; 0x180]).
Proof.
  assert (chain pair 0 [0; 0x180]) as Hc.
  { apply chain_next; [vm_compute; discriminate|].
    apply chain_last; vm_compute; reflexivity. }
  split; [exact Hc|].
  apply (C5_walk_follows_offsets false 0 [] false pair [0; 0x180] 0 Hc).
  - repeat constructor; vm_compute; discriminate.
  - simpl; lia.
Defined.

(** C5: the claim as stated fails.  The retried query was given a
    0x200-byte buffer; the first record's [NextEntryOffset] is 0x1000, and
    the walk dereferences offset 0x1000 without any check. *)
Lemma C5_counterexample_read_past_buffer :
  let run := EnumByNameOrPID 4 stray_os 0 [] false in
  queries (snd run) = [(tmpbuf, 0x100); (VirtualMem 0x20000, 0x200)] /\
  derefs (snd run) = [0; 0x1000] /\
  ~ Forall (fun o => 0 <= o < 0x200) (derefs (snd run)).
Proof.
  cbv zeta.
  assert (derefs (snd (EnumByNameOrPID 4 stray_os 0 [] false)) = [0; 0x1000]) as ->
    by (vm_compute; reflexivity).
  split; [vm_compute; reflexivity|]. split; [reflexivity|].
  intros H. inversion_clear H as [|? ? _ H']. inversion_clear H' as [|? ? Hb _].
  lia.
Qed.

End EnumFacts.

(** * Properties of the lifecycle surface *)

Section LifecycleFacts.
Import Nt Wstr Lifecycle Samples.

(** Unfold the monad and the primitive operations. *)
Ltac run :=
  cbv [Attach Attach_handle CreateAndAttach Terminate Detach EnsureInit
       core_Close core_Open_pid core_Open_handle nativeLdr_Init
       remote_CreateRPCEnvironment modules_GetModule modules_GetExport
       remote_ExecDirect os_CreateProcessW os_ResumeThread os_CloseHandle
       os_TerminateProcess reset emit set_core set_last_status get_handle
       LastNtStatus bind ret]; cbn [hProcess core_pid LastStatusValue log fst snd].

Lemma calls_of_log {A} (m : M A) w tr :
  log (snd (m w)) = log w ++ tr -> calls m w = tr.
Proof. intros H. unfold calls. rewrite H. apply drop_app_length. Qed.

Lemma Detach_run w :
  Detach w = (STATUS_SUCCESS,
              {| hProcess := NULL; core_pid := 0;
                 LastStatusValue := LastStatusValue w;
                 log := log w ++ detach_calls |}).
Proof. run. unfold detach_calls. by rewrite <- !app_assoc. Qed.

Lemma EnsureInit_log e w :
  log (snd (EnsureInit e w)) = log w ++ EnsureInit_calls e
  /\ hProcess (snd (EnsureInit e w)) = hProcess w
  /\ core_pid (snd (EnsureInit e w)) = core_pid w
  /\ LastStatusValue (snd (EnsureInit e w)) = LastStatusValue w.
Proof.
  unfold EnsureInit_calls. run.
  destruct (negb (_ =? 0)); run; by rewrite <- !app_assoc.
Qed.

(** C8: [Detach] resets memory access, module table, remote-execution
    environment, manual mapper, thread table and hook engine in this
    order, then closes the handle core; it does so in every state,
    returns STATUS_SUCCESS, and leaves the orchestrator Detached; a
    second [Detach] right after succeeds again and changes nothing but
    the log. *)
Theorem C8_Detach_order_and_idempotence w :
  calls Detach w = [Reset Memory; Reset Modules; Reset Remote; Reset MMap;
                    Reset Threads; Reset Hooks; CoreClose] /\
  fst (Detach w) = STATUS_SUCCESS /\
  Detached (snd (Detach w)) /\
  fst (Detach (snd (Detach w))) = STATUS_SUCCESS /\
  Detached (snd (Detach (snd (Detach w)))) /\
  hProcess (snd (Detach (snd (Detach w)))) = hProcess (snd (Detach w)) /\
  core_pid (snd (Detach (snd (Detach w)))) = core_pid (snd (Detach w)) /\
  LastStatusValue (snd (Detach (snd (Detach w)))) = LastStatusValue w.
Proof.
  split; [apply calls_of_log; by rewrite Detach_run|].
  rewrite !Detach_run; cbn [fst snd hProcess core_pid LastStatusValue]. done.
Qed.

(** *** What a run of each method leaves behind *)

Lemma Attach_run e pid access w :
  Attach e pid access w =
    (fst (open_pid_result e pid access),
     if NT_SUCCESS (fst (open_pid_result e pid access)) then
       {| hProcess := snd (open_pid_result e pid access); core_pid := pid;
          LastStatusValue := LastStatusValue w;
          log := log w ++ detach_calls
                 ++ [CoreOpenPid pid access; NativeLdrInit;
                     CreateRPCEnvironment false false] |}
     else
       {| hProcess := NULL; core_pid := 0;
          LastStatusValue := LastStatusValue w;
          log := log w ++ detach_calls ++ [CoreOpenPid pid access] |}).
Proof.
  run. destruct (open_pid_result e pid access) as [status h]; cbn [fst snd].
  destruct (NT_SUCCESS status) eqn:E; run; rewrite ?E; run;
    unfold detach_calls; by rewrite <- !app_assoc.
Qed.

Lemma Attach_handle_run e h w :
  Attach_handle e h w =
    (fst (open_handle_result e h),
     if NT_SUCCESS (fst (open_handle_result e h)) then
       {| hProcess := h; core_pid := snd (open_handle_result e h);
          LastStatusValue := LastStatusValue w;
          log := log w ++ detach_calls
                 ++ [CoreOpenHandle h; NativeLdrInit;
                     CreateRPCEnvironment false false] |}
     else
       {| hProcess := NULL; core_pid := 0;
          LastStatusValue := LastStatusValue w;
          log := log w ++ detach_calls ++ [CoreOpenHandle h] |}).
Proof.
  run. destruct (open_handle_result e h) as [status pid]; cbn [fst snd].
  destruct (NT_SUCCESS status) eqn:E; run; rewrite ?E; run;
    unfold detach_calls; by rewrite <- !app_assoc.
Qed.

Lemma CreateAndAttach_launch_failed e path suspended forceInit cmd dir st w s :
  CreateProcessW_result e (c_str path) (c_str cmd) (LastStatusValue w) = (None, s) ->
  CreateAndAttach e path suspended forceInit cmd dir st w =
    (s, {| hProcess := NULL; core_pid := 0; LastStatusValue := s;
           log := log w ++ detach_calls
                  ++ [CreateProcessW (c_str path) (c_str cmd) CREATE_SUSPENDED dir st] |}).
Proof.
  intros H. run. rewrite H. run. unfold detach_calls. by rewrite <- !app_assoc.
Qed.

Lemma CreateAndAttach_launched e path suspended forceInit cmd dir st w pi s :
  CreateProcessW_result e (c_str path) (c_str cmd) (LastStatusValue w) = (Some pi, s) ->
  CreateAndAttach e path suspended forceInit cmd dir st w =
    (fst (open_handle_result e (pi_hProcess pi)),
     if NT_SUCCESS (fst (open_handle_result e (pi_hProcess pi))) then
       {| hProcess := pi_hProcess pi;
          core_pid := snd (open_handle_result e (pi_hProcess pi));
          LastStatusValue := s;
          log := log w ++ detach_calls
                 ++ [CreateProcessW (c_str path) (c_str cmd) CREATE_SUSPENDED dir st;
                     CoreOpenHandle (pi_hProcess pi); NativeLdrInit]
                 ++ (if suspended then
                       if forceInit then EnsureInit_calls e else []
                     else [ResumeThread (pi_hThread pi)])
                 ++ [CloseHandle (pi_hThread pi)] |}
     else
       {| hProcess := NULL; core_pid := 0; LastStatusValue := s;
          log := log w ++ detach_calls
                 ++ [CreateProcessW (c_str path) (c_str cmd) CREATE_SUSPENDED dir st;
                     CoreOpenHandle (pi_hProcess pi);
                     CloseHandle (pi_hThread pi)] |}).
Proof.
  intros H. run. rewrite H. run.
  destruct (open_handle_result e (pi_hProcess pi)) as [status pid]; cbn [fst snd].
  unfold EnsureInit_calls, detach_calls.
  destruct (NT_SUCCESS status) eqn:E; run; rewrite ?E; run;
    [|by rewrite <- !app_assoc].
  destruct suspended; [destruct forceInit|]; run;
    [destruct (negb (_ =? 0)); run| |]; by rewrite <- !app_assoc.
Qed.







(** C9: the status [Attach] and [CreateAndAttach] return is the status
    of the open of the process handle.  Whatever the native-loader probe
    [Init] and the creation of the remote-execution environment answer,
    the run is the same: same status, same core, same calls; after a
    successful open the core still holds the handle, and no reset or close
    follows the open. *)
Theorem C9_post_attach_results_discarded e init rpc w :
  (forall pid access,
     Attach (with_post_results e init rpc) pid access w = Attach e pid access w /\
     fst (Attach e pid access w) = fst (open_pid_result e pid access) /\
     (NT_SUCCESS (fst (open_pid_result e pid access)) = true ->
        hProcess (snd (Attach e pid access w)) = snd (open_pid_result e pid access) /\
        calls (Attach e pid access) w
          = detach_calls ++ [CoreOpenPid pid access; NativeLdrInit;
                             CreateRPCEnvironment false false])) /\
  (forall h,
     Attach_handle (with_post_results e init rpc) h w = Attach_handle e h w /\
     fst (Attach_handle e h w) = fst (open_handle_result e h) /\
     (NT_SUCCESS (fst (open_handle_result e h)) = true ->
        hProcess (snd (Attach_handle e h w)) = h /\
        calls (Attach_handle e h) w
          = detach_calls ++ [CoreOpenHandle h; NativeLdrInit;
                             CreateRPCEnvironment false false])) /\
  (forall path suspended forceInit cmd dir st pi s,
     CreateProcessW_result e (c_str path) (c_str cmd) (LastStatusValue w) = (Some pi, s) ->
     CreateAndAttach (with_post_results e init rpc) path suspended forceInit cmd dir st w
       = CreateAndAttach e path suspended forceInit cmd dir st w /\
     fst (CreateAndAttach e path suspended forceInit cmd dir st w)
       = fst (open_handle_result e (pi_hProcess pi)) /\
     (NT_SUCCESS (fst (open_handle_result e (pi_hProcess pi))) = true ->
        hProcess (snd (CreateAndAttach e path suspended forceInit cmd dir st w))
          = pi_hProcess pi)).
Proof.
  split; [|split].
  - intros pid access. rewrite !Attach_run. cbn [fst snd]. split; [done|].
    split; [done|]. intros H. rewrite H. cbn [hProcess]. split; [done|].
    apply calls_of_log. by rewrite Attach_run, H.
  - intros h. rewrite !Attach_handle_run. cbn [fst snd]. split; [done|].
    split; [done|]. intros H. rewrite H. cbn [hProcess]. split; [done|].
    apply calls_of_log. by rewrite Attach_handle_run, H.
  - intros path suspended forceInit cmd dir st pi s H.
    rewrite (CreateAndAttach_launched e path suspended forceInit cmd dir st w pi s H).
    rewrite (CreateAndAttach_launched (with_post_results e init rpc) path
               suspended forceInit cmd dir st w pi s H).
    cbn [fst snd]. split; [done|]. split; [done|]. intros Hopen.
    by rewrite Hopen.
Qed.

Lemma C9_post_attach_results_discarded_witness :
  fst (Attach sample_env 1234 0x1FFFFF fresh) = STATUS_SUCCESS /\
  hProcess (snd (Attach sample_env 1234 0x1FFFFF fresh)) = 0x50 /\
  hProcess (snd (CreateAndAttach sample_env a_exe false true [] None None fresh))
    = 0x60.
Proof.
  destruct (C9_post_attach_results_discarded sample_env STATUS_SUCCESS
              (fun _ _ => STATUS_SUCCESS) fresh) as (H1 & _ & H3).
  destruct (H1 1234 0x1FFFFF) as (_ & Hs & Hh).
  destruct (Hh eq_refl) as [Hp _].
  destruct (H3 a_exe false true [] None None
              {| pi_hProcess := 0x60; pi_hThread := 0x64 |} STATUS_SUCCESS eq_refl)
    as (_ & _ & Hc).
  split; [rewrite Hs; reflexivity|]. split; [rewrite Hp; reflexivity|].
  exact (Hc eq_refl).
Defined.

(** C10: [Terminate] returns the thread's last status as it stands after
    the [TerminateProcess] call and makes no use of the BOOL that call
    returns; when the call succeeds and leaves the last status alone, a
    failure status left there by an earlier call is what [Terminate]
    returns. *)
Theorem C10_Terminate_returns_last_status e code w :
  let r := TerminateProcess_result e (hProcess w) code (LastStatusValue w) in
  fst (Terminate e code w) = snd r /\
  calls (Terminate e code) w = [TerminateProcess (hProcess w) code] /\
  (fst r = true -> snd r = LastStatusValue w ->
   NT_SUCCESS (LastStatusValue w) = false ->
   fst (Terminate e code w) = LastStatusValue w /\
   NT_SUCCESS (fst (Terminate e code w)) = false).
Proof.
  cbv zeta.
  assert (Terminate e code w =
          (snd (TerminateProcess_result e (hProcess w) code (LastStatusValue w)),
           {| hProcess := hProcess w; core_pid := core_pid w;
              LastStatusValue :=
                snd (TerminateProcess_result e (hProcess w) code (LastStatusValue w));
              log := log w ++ [TerminateProcess (hProcess w) code] |})) as R.
  { run. by destruct (TerminateProcess_result e _ _ _). }
  split; [by rewrite R|]. split; [apply calls_of_log; by rewrite R|].
  intros _ Hsame Hfail. rewrite R. cbn [fst]. by rewrite Hsame.
Qed.

Lemma C10_Terminate_returns_last_status_witness :
  fst (TerminateProcess_result sample_env 0x50 0 STATUS_ACCESS_DENIED) = true /\
  fst (Terminate sample_env 0 stale) = STATUS_ACCESS_DENIED /\
  NT_SUCCESS (fst (Terminate sample_env 0 stale)) = false.
Proof.
  split; [reflexivity|].
  destruct (C10_Terminate_returns_last_status sample_env 0 stale) as (_ & _ & H).
  destruct H as [H1 H2]; [reflexivity|reflexivity|reflexivity|].
  split; [rewrite H1; reflexivity | exact H2].
Defined.

End LifecycleFacts.

(** * Further properties of the enumerator *)

Section EnumMore.
Import Nt Wstr Enum Samples MoreSamples.

(** *** What the walk collects *)

Lemma selected_true_nonzero continues fpid name p :
  selected continues fpid name p = Ret true -> UniqueProcessId p <> 0.
Proof.
  unfold selected. destruct (UniqueProcessId p =? 0) eqn:E; [discriminate|].
  intros _. by apply Z.eqb_neq.
Qed.

Lemma walk_collects fuel continues fpid name thr mem :
  forall cur found found' offs,
  walk fuel continues fpid name thr mem cur found = (Returned found', offs) ->
  found' = found ++
    omap (fun o => match selected continues fpid name (mem o) with
                   | Ret true => Some (make_info thr (mem o))
                   | _ => None
                   end) offs.
Proof.
  induction fuel as [|fuel IH]; intros cur found found' offs; simpl; [discriminate|].
  destruct (selected continues fpid name (mem cur)) as [sel|] eqn:S; [|discriminate].
  destruct (NextEntryOffset (mem cur) =? 0).
  - intros [= <- <-]. simpl. rewrite S. destruct sel; by rewrite ?app_nil_r.
  - destruct (walk fuel _ _ _ _ _ _ _) as [r offs'] eqn:W.
    intros [= -> <-]. apply IH in W. simpl. rewrite S, W.
    destruct sel; by rewrite <- ?app_assoc.
Qed.

Lemma derefs_map_Deref buffer offs : derefs (map (Deref buffer) offs) = offs.
Proof. induction offs; simpl; congruence. Qed.

Lemma derefs_app a b : derefs (a ++ b) = derefs a ++ derefs b.
Proof. apply omap_app. Qed.

#[local] Instance ProcessInfo_le_total : Total ProcessInfo_le.
Proof. intros a b. unfold ProcessInfo_le. lia. Qed.

#[local] Instance ProcessInfo_le_trans : Transitive ProcessInfo_le.
Proof. intros a b c. unfold ProcessInfo_le. lia. Qed.

(** X1: when the parse of a snapshot returns, the status is the one of
    the query, and a [ProcessInfo] is in the result exactly when it was
    built from a record the walk dereferenced and the selection test
    accepted; such a record never has process id 0. *)
Theorem parse_results_origin fuel os fpid name thr buffer mem status st found evs :
  parse fuel os fpid name thr buffer mem status = (Returned (st, found), evs) ->
  st = status /\
  forall info, info ∈ found <->
    exists o, o ∈ derefs evs /\
              selected (invalid_parameter_continues os) fpid name (mem o) = Ret true /\
              UniqueProcessId (mem o) <> 0 /\
              info = make_info thr (mem o).
Proof.
  unfold parse.
  destruct (walk fuel _ fpid name thr mem 0 []) as [[unsorted| |] offs] eqn:W;
    [|discriminate..].
  intros [= <- <- <-]. split; [done|]. intros info.
  apply walk_collects in W. simpl in W.
  rewrite derefs_app, derefs_map_Deref. simpl. rewrite app_nil_r.
  unfold sort. rewrite merge_sort_Permutation, W, list_elem_of_omap.
  split.
  - intros (o & Ho & Hsel).
    destruct (selected _ fpid name (mem o)) as [[|]|] eqn:S; try discriminate.
    injection Hsel as <-. exists o. eauto using selected_true_nonzero.
  - intros (o & Ho & S & _ & ->). exists o. by rewrite S.
Qed.

Lemma parse_results_origin_witness :
  exists found,
    parse 4 late_first_os 7 [] true (VirtualMem 0x20000) named_pair STATUS_SUCCESS
      = (Returned (STATUS_SUCCESS, found),
         [Deref (VirtualMem 0x20000) 0; Deref (VirtualMem 0x20000) 0x180;
          Free (VirtualMem 0x20000)]) /\
    make_info true late_first ∈ found.
Proof.
  eexists. split; [vm_compute; reflexivity|].
  eapply (parse_results_origin 4 late_first_os 7 [] true (VirtualMem 0x20000)
            named_pair STATUS_SUCCESS); [vm_compute; reflexivity|].
  exists 0x180. split; [cbn; apply elem_of_cons; right; apply elem_of_cons; by left|].
  split; [vm_compute; reflexivity|]. split; [vm_compute; discriminate|].
  reflexivity.
Defined.

(** X2: the list returned is the list the walk collected, rearranged in
    ascending order of pid: nothing is dropped or added by the sort, and
    every element is at most every later one. *)
Theorem parse_results_sorted fuel os fpid name thr buffer mem status st found evs :
  parse fuel os fpid name thr buffer mem status = (Returned (st, found), evs) ->
  StronglySorted (fun a b => pid a <= pid b) found /\
  exists collected offs,
    walk fuel (invalid_parameter_continues os) fpid name thr mem 0 []
      = (Returned collected, offs) /\
    found ≡ₚ collected.
Proof.
  unfold parse.
  destruct (walk fuel _ fpid name thr mem 0 []) as [[unsorted| |] offs] eqn:W;
    [|discriminate..].
  intros [= <- <- <-]. split.
  - apply (StronglySorted_merge_sort ProcessInfo_le).
  - exists unsorted, offs. split; [done|]. apply merge_sort_Permutation.
Qed.

Lemma parse_results_sorted_witness :
  exists found,
    StronglySorted (fun a b => pid a <= pid b) found /\
    map pid found = [4; 7].
Proof.
  exists (sort [make_info false late_first;
                make_info false (process_record 0x180 4 (Some A_EXE) [])]).
  split; [|vm_compute; reflexivity].
  eapply (parse_results_sorted 4 late_first_os 0 [] false (VirtualMem 0x20000)
            (two_records (process_record 0x180 7 (Some a_exe)
                            [thread_at 200 11; thread_at 100 12])
                         (process_record 0 4 (Some A_EXE) []))
            STATUS_SUCCESS).
  vm_compute. reflexivity.
Defined.

(** *** The two ways of filtering *)

(** X3: with both filters empty (pid 0 and the empty name) the walk
    never calls the string comparison, so it cannot end in the CRT
    whatever the image-name pointers are: along a chain it returns every
    record whose process id is not 0, in chain order, after what was
    already found. *)
Theorem list_all_returns_every_process continues thr mem offs :
  forall cur, chain mem cur offs ->
  forall fuel found, (length offs <= fuel)%nat ->
  walk fuel continues 0 [] thr mem cur found
  = (Returned (found ++ map (fun o => make_info thr (mem o))
                            (filter (fun o => UniqueProcessId (mem o) <> 0) offs)),
     offs).
Proof.
  assert (forall p, selected continues 0 [] p
                    = Ret (negb (UniqueProcessId p =? 0))) as Hsel.
  { intros p. unfold selected. by destruct (UniqueProcessId p =? 0). }
  induction 1 as [cur Hz|cur offs Hnz Hc IH]; intros fuel found Hfuel;
    (destruct fuel as [|fuel]; [simpl in Hfuel; lia|]); simpl; rewrite Hsel.
  - apply Z.eqb_eq in Hz. rewrite Hz.
    destruct (UniqueProcessId (mem cur) =? 0) eqn:E; simpl.
    + apply Z.eqb_eq in E. rewrite filter_cons_False by tauto.
      by rewrite filter_nil, app_nil_r.
    + apply Z.eqb_neq in E. by rewrite filter_cons_True by done.
  - apply Z.eqb_neq in Hnz. rewrite Hnz.
    rewrite IH by (simpl in Hfuel; lia).
    destruct (UniqueProcessId (mem cur) =? 0) eqn:E; simpl.
    + apply Z.eqb_eq in E. by rewrite filter_cons_False by tauto.
    + apply Z.eqb_neq in E. rewrite filter_cons_True by done.
      simpl. by rewrite <- app_assoc.
Qed.

Lemma list_all_returns_every_process_witness :
  walk 2 false 0 [] false idle_first 0 []
  = (Returned [make_info false late_first], [0; 0x180]).
Proof.
  assert (chain idle_first 0 [0; 0x180]) as Hc.
  { apply chain_next; [vm_compute; discriminate|].
    apply chain_last; vm_compute; reflexivity. }
  rewrite (list_all_returns_every_process false false idle_first [0; 0x180] 0 Hc 2 []
             (le_n 2)).
  reflexivity.
Defined.



(** *** The thread list *)

Lemma map_alter_set_mainThread {B} (f : ThreadInfo -> B) i (l : list ThreadInfo) :
  (forall t, f (set_mainThread t) = f t) ->
  map f (alter set_mainThread i l) = map f l.
Proof.
  intros Hf. revert i. induction l as [|t l IH]; intros [|i]; simpl; [done..| |].
  - by rewrite Hf.
  - f_equal. apply IH.
Qed.

Lemma thread_loop_ids p n :
  map (fun t => (tid t, startAddress t))
      (acc (foldl (thread_loop_body p) thread_loop_init (seq 0 n)))
  = map (fun i => (to_uint32 (UniqueThread (Threads p i)),
                   StartAddress (Threads p i))) (seq 0 n).
Proof.
  induction n as [|n IH]; [done|].
  rewrite seq_S, foldl_snoc, map_app. simpl.
  rewrite map_alter_set_mainThread by done. by rewrite map_app, IH.
Qed.

(** X5: with [includeThreads] the thread list of a record has one entry
    per inline thread record, in array order, each with the thread id
    cut to 32 bits and the start address of its record, whatever the
    creation times are; without [includeThreads] the list is empty. *)
Theorem thread_list_follows_array p :
  map (fun t => (tid t, startAddress t)) (threads (make_info true p))
  = map (fun i => (to_uint32 (UniqueThread (Threads p i)),
                   StartAddress (Threads p i))) (seq 0 (NumberOfThreads p))
  /\ length (threads (make_info true p)) = NumberOfThreads p
  /\ threads (make_info false p) = [].
Proof.
  pose proof (thread_loop_ids p (NumberOfThreads p)) as H.
  split; [exact H|]. split; [|done].
  apply (f_equal length) in H. rewrite !length_map, length_seq in H. exact H.
Qed.

Lemma thread_loop_head_marked p n :
  (0 < n)%nat ->
  exists t, acc (foldl (thread_loop_body p) thread_loop_init (seq 0 n)) !! 0%nat
            = Some t /\ mainThread t = true.
Proof.
  induction n as [|n IH]; [lia|]. intros _.
  rewrite seq_S, foldl_snoc. simpl.
  destruct n as [|n].
  - simpl. destruct (CreateTime (Threads p 0) <? _); simpl; eauto.
  - destruct IH as (t & Ht & Hm); [lia|].
    set (st := foldl (thread_loop_body p) thread_loop_init (seq 0 (S n))) in *.
    set (i := if CreateTime (Threads p (S n)) <? minTime st then S n else mainIdx st).
    destruct (decide (i = 0%nat)) as [->|Hi].
    + rewrite list_lookup_alter_eq, lookup_app_l, Ht
        by (apply lookup_lt_is_Some; eauto). simpl. eauto.
    + rewrite list_lookup_alter_ne, lookup_app_l, Ht
        by (done || apply lookup_lt_is_Some; eauto). eauto.
Qed.

(** X6: a record with at least one thread always has its first thread
    flagged as main thread, for every choice of creation times. *)
Theorem first_thread_always_flagged p :
  (0 < NumberOfThreads p)%nat ->
  exists t, threads (make_info true p) !! 0%nat = Some t /\ mainThread t = true.
Proof. apply thread_loop_head_marked. Qed.

Lemma first_thread_always_flagged_witness :
  exists t, threads (make_info true late_first) !! 0%nat = Some t /\
            mainThread t = true.
Proof. apply (first_thread_always_flagged late_first). simpl; lia. Defined.

(** X7: when no creation time is below -1 (so for every timestamp the
    kernel writes), the flag goes to the first thread of the array and
    to no other, wherever the earliest creation time sits. *)
Theorem only_first_thread_flagged p i t :
  (forall j, (j < NumberOfThreads p)%nat -> -1 <= CreateTime (Threads p j)) ->
  threads (make_info true p) !! i = Some t ->
  (mainThread t = true <-> i = 0%nat).
Proof.
  intros Hge. rewrite (make_info_marks_first p Hge).
  destruct i as [|i].
  - rewrite list_lookup_alter_eq.
    destruct (map _ _ !! 0%nat); simpl; [|discriminate]. by intros [= <-].
  - rewrite list_lookup_alter_ne, list_lookup_fmap by done.
    destruct (seq _ _ !! S i); simpl; [|discriminate]. by intros [= <-].
Qed.

Lemma only_first_thread_flagged_witness :
  exists t, threads (make_info true late_first) !! 1%nat = Some t /\
            mainThread t <> true.
Proof.
  eexists. split; [vm_compute; reflexivity|].
  intros H.
  apply (only_first_thread_flagged late_first 1
           {| tid := 12; startAddress := 0x401000; mainThread := false |}) in H.
  - discriminate.
  - intros [|[|j]] Hj; vm_compute; (discriminate || (simpl in Hj; lia)).
  - vm_compute; reflexivity.
Defined.

(** *** The buffer *)

Lemma parse_returned fuel os fpid name thr buffer mem status res evs :
  parse fuel os fpid name thr buffer mem status = (Returned res, evs) ->
  exists offs, evs = map (Deref buffer) offs ++ [Free buffer].
Proof.
  unfold parse.
  destruct (walk fuel _ fpid name thr mem 0 []) as [[found| |] offs];
    [|discriminate..].
  intros [= _ <-]. eauto.
Qed.

(** X9: whenever the operation returns, the release is the last thing
    it did; the pointer released is the buffer handed to the last query;
    at most one region was allocated, and if one was, it is that buffer
    with the size that query was given; nothing else is released. *)
Theorem run_ends_with_release_of_queried_buffer fuel os fpid name thr res :
  fst (EnumByNameOrPID fuel os fpid name thr) = Returned res ->
  let tr := snd (EnumByNameOrPID fuel os fpid name thr) in
  exists buffer size,
    last (queries tr) = Some (buffer, size) /\
    last tr = Some (Free buffer) /\
    frees tr = [buffer] /\
    (allocs tr = [] \/ allocs tr = [(size, buffer)]).
Proof.
  unfold EnumByNameOrPID.
  destruct (NT_SUCCESS (q_status (NtQuerySystemInformation os 0%nat tmpbuf 256))).
  - pose proof (parse_log fuel os fpid name thr tmpbuf
      (q_written (NtQuerySystemInformation os 0%nat tmpbuf 256))
      (q_status (NtQuerySystemInformation os 0%nat tmpbuf 256))) as P.
    destruct (parse _ _ _ _ _ _ _ _) as [r evs] eqn:Hp; cbn [fst snd].
    intros ->. destruct P as (Hq & Ha & Hf).
    apply parse_returned in Hp as [offs Hevs].
    exists tmpbuf, 256.
    rewrite queries_app, allocs_app, frees_app, Hq, Ha, Hf.
    split; [done|]. split; [|split; [done|by left]].
    rewrite Hevs, !app_assoc. apply last_snoc.
  - set (len := q_returnLength (NtQuerySystemInformation os 0%nat tmpbuf 256)).
    set (buffer := match VirtualAlloc os len with
                   | Some base => VirtualMem base | None => nullptr end).
    exists buffer, len.
    destruct (NT_SUCCESS (q_status (NtQuerySystemInformation os 1%nat buffer len))).
    + pose proof (parse_log fuel os fpid name thr buffer
        (q_written (NtQuerySystemInformation os 1%nat buffer len))
        (q_status (NtQuerySystemInformation os 1%nat buffer len))) as P.
      destruct (parse _ _ _ _ _ _ _ _) as [r evs] eqn:Hp; cbn [fst snd] in *.
      subst r. destruct P as (Hq & Ha & Hf).
      apply parse_returned in Hp as [offs Hevs].
      rewrite !queries_app, !allocs_app, !frees_app, Hq, Ha, Hf.
      split; [done|]. split; [|split; [done|by right]].
      rewrite Hevs, !app_assoc. apply last_snoc.
    + cbn [fst snd]. split; [done|]. split; [|split; [done|by right]].
      apply last_snoc.
Qed.

Lemma run_ends_with_release_of_queried_buffer_witness :
  exists buffer size,
    last (queries (snd (EnumByNameOrPID 4 late_first_os 0 [] false)))
      = Some (buffer, size) /\
    frees (snd (EnumByNameOrPID 4 late_first_os 0 [] false)) = [buffer].
Proof.
  destruct (run_ends_with_release_of_queried_buffer 4 late_first_os 0 [] false
              (STATUS_SUCCESS, [make_info false late_first]))
    as (buffer & size & H1 & _ & H3 & _); [vm_compute; reflexivity|].
  exists buffer, size. split; [exact H1 | exact H3].
Defined.

(** *** Case of the filter name *)

Lemma towlower_eq_zero c c' : towlower c = towlower c' -> (c =? 0) = (c' =? 0).
Proof.
  intros H. destruct (c =? 0) eqn:E, (c' =? 0) eqn:E'; try done.
  - apply Z.eqb_eq in E. apply Z.eqb_neq in E'. subst c.
    change (towlower 0) with 0 in H. symmetry in H. apply (proj1 (towlower_zero _)) in H. congruence.
  - apply Z.eqb_eq in E'. apply Z.eqb_neq in E. subst c'.
    change (towlower 0) with 0 in H. apply (proj1 (towlower_zero _)) in H. congruence.
Qed.

Lemma c_str_lower s : forall s',
  map towlower s = map towlower s' ->
  map towlower (c_str s) = map towlower (c_str s').
Proof.
  induction s as [|c s IH]; intros [|c' s']; simpl; try done.
  intros [= Hc Hs]. rewrite (towlower_eq_zero c c' Hc).
  destruct (c' =? 0); [done|]. simpl. by rewrite Hc, (IH s' Hs).
Qed.

Lemma wcsicmp_body_lower a : forall a' b,
  map towlower a = map towlower a' ->
  wcsicmp_body a b = wcsicmp_body a' b.
Proof.
  induction a as [|c a IH]; intros [|c' a'] b; simpl; try done.
  intros [= Hc Ha]. destruct b as [|c2 b]; [done|].
  rewrite Hc. destruct (towlower c' =? towlower c2); [by apply IH|done].
Qed.

Lemma selected_lower continues fpid name name' p :
  ci_equal name name' ->
  selected continues fpid name p = selected continues fpid name' p.
Proof.
  unfold ci_equal. intros H. unfold selected.
  assert (empty name = empty name') as ->
    by (destruct name, name'; done).
  destruct (ImageName_Buffer p) as [s|]; simpl; [|done].
  rewrite (wcsicmp_body_lower (c_str name) (c_str name') s); [done|].
  by apply c_str_lower.
Qed.

Lemma walk_lower fuel continues fpid name name' thr mem :
  ci_equal name name' ->
  forall cur found,
  walk fuel continues fpid name thr mem cur found
  = walk fuel continues fpid name' thr mem cur found.
Proof.
  intros H. induction fuel as [|fuel IH]; intros cur found; simpl; [done|].
  rewrite (selected_lower continues fpid name name' (mem cur) H).
  destruct (selected continues fpid name' (mem cur)) as [sel|]; [|done].
  by rewrite IH.
Qed.

(** X10: the filter name is matched without regard to the case of the
    letters A-Z: two filter names that are equal after lower-casing give
    the same run, results and calls alike. *)
Theorem filter_name_case_is_irrelevant fuel os fpid name name' thr :
  ci_equal name name' ->
  EnumByNameOrPID fuel os fpid name thr = EnumByNameOrPID fuel os fpid name' thr.
Proof.
  intros H. unfold EnumByNameOrPID, parse.
  by rewrite !(walk_lower fuel _ fpid name name' thr _ H).
Qed.

Lemma filter_name_case_is_irrelevant_witness :
  EnumByNameOrPID 4 late_first_os 0 A_EXE false
  = EnumByNameOrPID 4 late_first_os 0 a_exe false.
Proof.
  apply (filter_name_case_is_irrelevant 4 late_first_os 0 A_EXE a_exe false).
  vm_compute; reflexivity.
Defined.

End EnumMore.

(** * Further properties of the lifecycle surface *)

Section LifecycleMore.
Import Nt Wstr Lifecycle Liveness Samples MoreSamples.

(** X11: [Attach] by pid, [Attach] by handle and [CreateAndAttach] all
    begin with the seven calls of a full [Detach], in every state and for
    every outcome of the open or the launch, and what follows contains no
    further reset and no further close of the core. *)
Theorem every_entry_point_detaches_first e w :
  let quiet (rest : list call) := ((CoreClose ∉ rest) /\ (forall s, Reset s ∉ rest)) in
  (forall pid access,
     exists rest, calls (Attach e pid access) w = detach_calls ++ rest /\ quiet rest) /\
  (forall h,
     exists rest, calls (Attach_handle e h) w = detach_calls ++ rest /\ quiet rest) /\
  (forall path suspended forceInit cmd dir st,
     exists rest,
       calls (CreateAndAttach e path suspended forceInit cmd dir st) w
         = detach_calls ++ rest /\ quiet rest).
Proof.
  cbv zeta.
  assert (forall rest : list call,
            Forall (fun c => match c with
                             | CoreClose | Reset _ => False
                             | _ => True
                             end) rest ->
            (CoreClose ∉ rest) /\ (forall s, Reset s ∉ rest)) as Hquiet.
  { intros rest H. rewrite Forall_forall in H.
    split; [|intros s]; intros Hin; exact (H _ Hin). }
  split; [|split].
  - intros pid access. pose proof (Attach_run e pid access w) as R.
    destruct (NT_SUCCESS (fst (open_pid_result e pid access)));
      eexists; (split; [apply calls_of_log; by rewrite R|]);
      apply Hquiet; by repeat constructor.
  - intros h. pose proof (Attach_handle_run e h w) as R.
    destruct (NT_SUCCESS (fst (open_handle_result e h)));
      eexists; (split; [apply calls_of_log; by rewrite R|]);
      apply Hquiet; by repeat constructor.
  - intros path suspended forceInit cmd dir st.
    destruct (CreateProcessW_result e (c_str path) (c_str cmd) (LastStatusValue w))
      as [[pi|] s] eqn:L.
    + pose proof (CreateAndAttach_launched e path suspended forceInit cmd dir
                    st w pi s L) as R.
      destruct (NT_SUCCESS (fst (open_handle_result e (pi_hProcess pi))));
        eexists; (split; [apply calls_of_log; by rewrite R|]);
        apply Hquiet; [|by repeat constructor].
      unfold EnsureInit_calls.
      destruct suspended; [destruct forceInit; [destruct (negb (_ =? 0))|]|];
        by repeat constructor.
    + pose proof (CreateAndAttach_launch_failed e path suspended forceInit cmd
                    dir st w s L) as R.
      eexists; (split; [apply calls_of_log; by rewrite R|]).
      apply Hquiet; by repeat constructor.
Qed.

(** X12: what [EnsureInit] and [ResumeThread] answer has no effect on
    the status [CreateAndAttach] returns nor on the core it leaves behind:
    two environments that agree on the launch and on the open of the
    process handle give the same status and the same handle and pid in
    the core. *)
Theorem CreateAndAttach_ignores_init_and_resume
    e e' path suspended forceInit cmd dir st w :
  CreateProcessW_result e = CreateProcessW_result e' ->
  open_handle_result e = open_handle_result e' ->
  let r := CreateAndAttach e path suspended forceInit cmd dir st w in
  let r' := CreateAndAttach e' path suspended forceInit cmd dir st w in
  fst r = fst r' /\
  hProcess (snd r) = hProcess (snd r') /\
  core_pid (snd r) = core_pid (snd r').
Proof.
  intros HL HO. cbv zeta.
  destruct (CreateProcessW_result e (c_str path) (c_str cmd) (LastStatusValue w))
    as [[pi|] s] eqn:L.
  - pose proof L as L'. rewrite HL in L'.
    rewrite (CreateAndAttach_launched e path suspended forceInit cmd dir st w pi s L),
            (CreateAndAttach_launched e' path suspended forceInit cmd dir st w pi s L').
    rewrite <- HO. cbn [fst snd].
    by destruct (NT_SUCCESS (fst (open_handle_result e (pi_hProcess pi)))).
  - pose proof L as L'. rewrite HL in L'.
    by rewrite
      (CreateAndAttach_launch_failed e path suspended forceInit cmd dir st w s L),
      (CreateAndAttach_launch_failed e' path suspended forceInit cmd dir st w s L').
Qed.

Lemma CreateAndAttach_ignores_init_and_resume_witness :
  fst (CreateAndAttach deaf_env a_exe true true [] None None fresh) = STATUS_SUCCESS /\
  hProcess (snd (CreateAndAttach deaf_env a_exe false true [] None None fresh)) = 0x60.
Proof.
  destruct (CreateAndAttach_ignores_init_and_resume deaf_env sample_env a_exe
              true true [] None None fresh eq_refl eq_refl) as (H1 & _).
  destruct (CreateAndAttach_ignores_init_and_resume deaf_env sample_env a_exe
              false true [] None None fresh eq_refl eq_refl) as (_ & H2 & _).
  split; [rewrite H1; reflexivity | rewrite H2; reflexivity].
Defined.

(** X13: [EnsureInit] looks up ntdll.dll and then NtYieldExecution in
    it.  When the export address comes back null it returns
    STATUS_NOT_FOUND, a failure status, without any remote call; otherwise
    it makes one remote call to that address with argument 0 and returns
    its status. *)
Theorem EnsureInit_needs_the_export e w :
  let hMod := GetModule_result e "ntdll.dll" in
  let pProc := GetExport_result e hMod "NtYieldExecution" in
  (pProc = 0 ->
     fst (EnsureInit e w) = STATUS_NOT_FOUND /\
     NT_SUCCESS (fst (EnsureInit e w)) = false /\
     calls (EnsureInit e) w = [GetModule "ntdll.dll"; GetExport hMod "NtYieldExecution"]) /\
  (pProc <> 0 ->
     fst (EnsureInit e w) = ExecDirect_result e pProc 0 /\
     calls (EnsureInit e) w
       = [GetModule "ntdll.dll"; GetExport hMod "NtYieldExecution";
          ExecDirect pProc 0]).
Proof.
  cbv zeta. destruct (EnsureInit_log e w) as (Hl & _).
  pose proof (calls_of_log (EnsureInit e) w _ Hl) as Hc.
  rewrite Hc. unfold EnsureInit_calls, EnsureInit, bind.
  cbv [modules_GetModule modules_GetExport remote_ExecDirect emit bind ret].
  cbn [fst snd].
  split.
  - intros ->. done.
  - intros Hne. apply Z.eqb_neq in Hne. rewrite Hne. done.
Qed.

Lemma EnsureInit_needs_the_export_witness :
  fst (EnsureInit deaf_env fresh) = STATUS_NOT_FOUND /\
  fst (EnsureInit sample_env fresh) = STATUS_SUCCESS.
Proof.
  destruct (EnsureInit_needs_the_export deaf_env fresh) as [H1 _].
  destruct (EnsureInit_needs_the_export sample_env fresh) as [_ H2].
  split.
  - exact (proj1 (H1 eq_refl)).
  - rewrite (proj1 (H2 ltac:(vm_compute; discriminate))). reflexivity.
Defined.

(** *** Liveness *)

(** X14: a Detached orchestrator is never valid, and [valid] then does
    not ask the OS at all; this is the state after [Detach], after an
    [Attach] whose open failed and after a [CreateAndAttach] whose launch
    failed. *)
Theorem detached_is_never_valid q e w :
  valid q (snd (Detach w)) = (false, []) /\
  (forall pid access,
     NT_SUCCESS (fst (open_pid_result e pid access)) = false ->
     valid q (snd (Attach e pid access w)) = (false, [])) /\
  (forall path suspended forceInit cmd dir st s,
     CreateProcessW_result e (c_str path) (c_str cmd) (LastStatusValue w) = (None, s) ->
     valid q (snd (CreateAndAttach e path suspended forceInit cmd dir st w))
       = (false, [])).
Proof.
  split; [by rewrite Detach_run|]. split.
  - intros pid access H. by rewrite Attach_run, H.
  - intros path suspended forceInit cmd dir st s H.
    by rewrite (CreateAndAttach_launch_failed e path suspended forceInit cmd dir
                  st w s H).
Qed.

Lemma detached_is_never_valid_witness :
  valid running (snd (Attach sample_env 4 0x1FFFFF stale)) = (false, []) /\
  valid running (snd (CreateAndAttach sample_env [] false true [] None None stale))
    = (false, []).
Proof.
  destruct (detached_is_never_valid running sample_env stale) as (_ & H1 & H2).
  split.
  - apply H1. reflexivity.
  - apply (H2 [] false true [] None None STATUS_OBJECT_NAME_NOT_FOUND). reflexivity.
Defined.

(** X15: after a successful [Attach] by a non-null handle, [valid] asks
    for the exit code of exactly that handle and is true exactly when the
    call succeeds and the exit code reads STILL_ACTIVE (259), so also for
    a process that has exited with code 259. *)
Theorem valid_after_attach q e h w :
  NT_SUCCESS (fst (open_handle_result e h)) = true ->
  h <> NULL ->
  snd (valid q (snd (Attach_handle e h w))) = [h] /\
  (fst (valid q (snd (Attach_handle e h w))) = true <-> q h = Some STILL_ACTIVE).
Proof.
  intros Hopen Hh. rewrite Attach_handle_run, Hopen. unfold valid. cbn [snd hProcess].
  apply Z.eqb_neq in Hh. rewrite Hh.
  destruct (q h) as [code|]; cbn [fst snd]; (split; [done|]).
  - rewrite Z.eqb_eq. split; [by intros ->|by intros [= ->]].
  - split; discriminate.
Qed.

Lemma valid_after_attach_witness :
  fst (valid running (snd (Attach_handle sample_env 0x60 fresh))) = true.
Proof.
  apply (valid_after_attach running sample_env 0x60 fresh);
    [reflexivity | vm_compute; discriminate | reflexivity].
Defined.

(** X16: [Terminate] does not detach: the core keeps its handle and
    pid, so [valid] afterwards asks about the same handle as before; its
    only call is [TerminateProcess] with the handle of the core, the null
    handle when the orchestrator is Detached. *)
Theorem Terminate_keeps_the_core q e code w :
  hProcess (snd (Terminate e code w)) = hProcess w /\
  core_pid (snd (Terminate e code w)) = core_pid w /\
  valid q (snd (Terminate e code w)) = valid q w /\
  (Detached w -> calls (Terminate e code) w = [TerminateProcess NULL code]).
Proof.
  assert (hProcess (snd (Terminate e code w)) = hProcess w /\
          core_pid (snd (Terminate e code w)) = core_pid w /\
          log (snd (Terminate e code w))
            = log w ++ [TerminateProcess (hProcess w) code]) as (Hh & Hp & Hl).
  { cbv [Terminate os_TerminateProcess get_handle LastNtStatus set_last_status
         emit bind ret]. cbn [hProcess core_pid LastStatusValue log fst snd].
    by destruct (TerminateProcess_result e _ _ _). }
  split; [done|]. split; [done|]. split.
  - unfold valid. by rewrite Hh.
  - intros Hd. unfold Detached in Hd. rewrite <- Hd.
    by apply calls_of_log.
Qed.

Lemma Terminate_keeps_the_core_witness :
  calls (Terminate sample_env 1) fresh = [TerminateProcess NULL 1].
Proof.
  destruct (Terminate_keeps_the_core running sample_env 1 fresh) as (_ & _ & _ & H).
  apply H. reflexivity.
Defined.

End LifecycleMore.

(** * Properties of the privilege code *)

Section TokenFacts.
Import Nt Token MoreSamples.

Lemma open_token_shape os teb :
  let access := Z.lor TOKEN_QUERY TOKEN_ADJUST_PRIVILEGES in
  match open_token os teb with
  | inl (_, _, log) | inr (_, _, log) =>
      closed log = [] /\ adjusted log = [] /\
      omap (fun c => match c with OpenThreadToken a => Some a | _ => None end) log
        = [access] /\
      (log = [OpenThreadToken access] \/
       log = [OpenThreadToken access; OpenProcessToken access])
  end.
Proof.
  cbv zeta. unfold open_token.
  destruct (OpenThreadToken_result os _ teb) as [[h|] teb1]; [by auto|].
  destruct (negb (LastErrorValue teb1 =? ERROR_NO_TOKEN)); [by auto|].
  destruct (OpenProcessToken_result os _ teb1) as [[h|] teb2]; by auto.
Qed.

(** X17: the process token is tried exactly when the thread token
    cannot be opened and the last error is ERROR_NO_TOKEN; with any other
    last error the function returns at once, with the thread's last status
    and no further call. *)
Theorem process_token_is_the_fallback os name teb :
  let access := Z.lor TOKEN_QUERY TOKEN_ADJUST_PRIVILEGES in
  let first := OpenThreadToken_result os access teb in
  (OpenProcessToken access ∈ snd (GrantPriviledge os name teb) <->
     fst first = None /\ LastErrorValue (snd first) = ERROR_NO_TOKEN) /\
  (fst first = None -> LastErrorValue (snd first) <> ERROR_NO_TOKEN ->
     GrantPriviledge os name teb
       = (LastStatusValue (snd first), snd first, [OpenThreadToken access])).
Proof.
  cbv zeta. unfold GrantPriviledge, open_token.
  destruct (OpenThreadToken_result os _ teb) as [[h|] teb1]; cbn [fst snd].
  - split; [|discriminate].
    destruct (LookupPrivilegeValue_result os name teb1) as [[b luid] teb2].
    destruct (AdjustTokenPrivileges_result os h luid _ teb2) as [ok teb3].
    destruct (negb ok); [|destruct (LastErrorValue teb3 =? _)]; cbn [snd];
      rewrite ?elem_of_app, ?elem_of_cons, ?elem_of_nil;
      intuition discriminate.
  - destruct (LastErrorValue teb1 =? ERROR_NO_TOKEN) eqn:E; cbn [negb].
    + apply Z.eqb_eq in E. split; [|done]. split; [done|]. intros _.
      destruct (OpenProcessToken_result os _ teb1) as [[h|] teb2]; cbn [snd].
      * destruct (LookupPrivilegeValue_result os name teb2) as [[b luid] teb3].
        destruct (AdjustTokenPrivileges_result os h luid _ teb3) as [ok teb4].
        destruct (negb ok); [|destruct (LastErrorValue teb4 =? _)]; cbn [snd];
          rewrite ?elem_of_app, ?elem_of_cons; tauto.
      * rewrite !elem_of_cons. tauto.
    + apply Z.eqb_neq in E. split; [|done]. cbn [snd].
      rewrite elem_of_cons, elem_of_nil. intuition discriminate.
Qed.

Lemma process_token_is_the_fallback_witness :
  OpenProcessToken 0x28 ∈ snd (GrantPriviledge granting_os SE_DEBUG_NAME clean_teb) /\
  GrantPriviledge refusing_os SE_DEBUG_NAME clean_teb
    = (STATUS_ACCESS_DENIED,
       {| LastErrorValue := 5; LastStatusValue := STATUS_ACCESS_DENIED |},
       [OpenThreadToken 0x28]).
Proof.
  destruct (process_token_is_the_fallback granting_os SE_DEBUG_NAME clean_teb)
    as [H1 _].
  destruct (process_token_is_the_fallback refusing_os SE_DEBUG_NAME clean_teb)
    as [_ H2].
  split.
  - apply H1. split; reflexivity.
  - apply H2; [reflexivity | vm_compute; discriminate].
Defined.

(** X18: the function adjusts at most one token.  Whenever it closes a
    handle, that handle is the token it adjusted, closed once, as its last
    call, and the status returned is the thread's last status.  A run that
    adjusted a token and closed nothing returns STATUS_SUCCESS: on that
    path the token handle stays open. *)
Theorem token_is_closed_only_when_adjustment_fails os name teb :
  let st := fst (fst (GrantPriviledge os name teb)) in
  let teb' := snd (fst (GrantPriviledge os name teb)) in
  let log := snd (GrantPriviledge os name teb) in
  (length (adjusted log) <= 1)%nat /\
  (forall h, h ∈ closed log ->
     closed log = [h] /\
     (exists luid, adjusted log = [(h, luid)]) /\
     last log = Some (CloseHandle h) /\
     st = LastStatusValue teb') /\
  (closed log = [] -> adjusted log <> [] -> st = STATUS_SUCCESS).
Proof.
  cbv zeta. unfold GrantPriviledge.
  pose proof (open_token_shape os teb) as S. cbv zeta in S.
  destruct (open_token os teb) as [[[h teb1] log1]|[[st teb1] log1]];
    destruct S as (Hc & Ha & _ & _).
  2: { cbn [fst snd]. rewrite Hc, Ha. split; [simpl; lia|].
       split; [intros h Hin; by apply elem_of_nil in Hin|done]. }
  destruct (LookupPrivilegeValue_result os name teb1) as [[b luid] teb2].
  destruct (AdjustTokenPrivileges_result os h luid _ teb2) as [ok teb3].
  assert (forall tail,
            adjusted (log1 ++ [LookupPrivilegeValue name;
                               AdjustTokenPrivileges h luid SE_PRIVILEGE_ENABLED] ++ tail)
              = (h, luid) :: adjusted tail) as Hadj.
  { intros tail. unfold adjusted. rewrite omap_app. fold (adjusted log1).
    by rewrite Ha. }
  assert (forall tail,
            closed (log1 ++ [LookupPrivilegeValue name;
                             AdjustTokenPrivileges h luid SE_PRIVILEGE_ENABLED] ++ tail)
              = closed tail) as Hcl.
  { intros tail. unfold closed. rewrite omap_app. fold (closed log1).
    by rewrite Hc. }
  destruct (negb ok); [|destruct (LastErrorValue teb3 =? _)]; cbn [fst snd];
    rewrite <- ?app_assoc, ?Hadj, ?Hcl;
    try (specialize (Hadj []); specialize (Hcl []); rewrite app_nil_r in Hadj, Hcl;
         rewrite ?Hadj, ?Hcl);
    cbn [adjusted closed omap list_omap length].
  - split; [simpl; lia|]. split; [|discriminate].
    intros h' Hin. apply list_elem_of_singleton in Hin as ->.
    split; [done|]. split; [eauto|]. split; [|done].
    rewrite !app_assoc. apply last_snoc.
  - split; [simpl; lia|]. split; [|discriminate].
    intros h' Hin. apply list_elem_of_singleton in Hin as ->.
    split; [done|]. split; [eauto|]. split; [|done].
    rewrite !app_assoc. apply last_snoc.
  - split; [simpl; lia|]. split; [|done].
    intros h' Hin. by apply elem_of_nil in Hin.
Qed.

Lemma token_is_closed_only_when_adjustment_fails_witness :
  closed (snd (GrantPriviledge stingy_os SE_DEBUG_NAME clean_teb)) = [0x90] /\
  fst (fst (GrantPriviledge granting_os SE_DEBUG_NAME clean_teb)) = STATUS_SUCCESS.
Proof.
  destruct (token_is_closed_only_when_adjustment_fails stingy_os SE_DEBUG_NAME
              clean_teb) as (_ & H1 & _).
  destruct (token_is_closed_only_when_adjustment_fails granting_os SE_DEBUG_NAME
              clean_teb) as (_ & _ & H2).
  split.
  - apply (H1 0x90). vm_compute. apply list_elem_of_here.
  - apply H2; [reflexivity | vm_compute; discriminate].
Defined.

(** X19: whether [LookupPrivilegeValue] succeeds is never looked at:
    once a token is open, [AdjustTokenPrivileges] is called exactly once,
    on that token, with whatever LUID the lookup left in the buffer. *)
Theorem lookup_result_is_not_checked os name teb hToken teb1 log1 :
  open_token os teb = inl (hToken, teb1, log1) ->
  adjusted (snd (GrantPriviledge os name teb))
  = [(hToken, snd (fst (LookupPrivilegeValue_result os name teb1)))].
Proof.
  intros H. unfold GrantPriviledge.
  pose proof (open_token_shape os teb) as S. cbv zeta in S. rewrite H in *.
  destruct S as (_ & Ha & _).
  destruct (LookupPrivilegeValue_result os name teb1) as [[b luid] teb2].
  destruct (AdjustTokenPrivileges_result os hToken luid _ teb2) as [ok teb3].
  destruct (negb ok); [|destruct (LastErrorValue teb3 =? _)]; cbn [fst snd];
    unfold adjusted; rewrite ?omap_app; fold (adjusted log1); by rewrite Ha.
Qed.

Lemma lookup_result_is_not_checked_witness :
  fst (fst (LookupPrivilegeValue_result stingy_os SE_DEBUG_NAME clean_teb)) = false /\
  adjusted (snd (GrantPriviledge stingy_os SE_DEBUG_NAME clean_teb)) = [(0x90, 0)].
Proof.
  split; [reflexivity|].
  apply (lookup_result_is_not_checked stingy_os SE_DEBUG_NAME clean_teb 0x90
           clean_teb [OpenThreadToken 0x28]).
  reflexivity.
Defined.

Lemma GrantPriviledge_opens_once os name teb :
  omap (fun c => match c with OpenThreadToken a => Some a | _ => None end)
       (snd (GrantPriviledge os name teb))
  = [Z.lor TOKEN_QUERY TOKEN_ADJUST_PRIVILEGES].
Proof.
  unfold GrantPriviledge.
  pose proof (open_token_shape os teb) as S. cbv zeta in S.
  destruct (open_token os teb) as [[[h teb1] log1]|[[st teb1] log1]];
    destruct S as (_ & _ & Ho & _); [|done].
  destruct (LookupPrivilegeValue_result os name teb1) as [[b luid] teb2].
  destruct (AdjustTokenPrivileges_result os h luid _ teb2) as [ok teb3].
  destruct (negb ok); [|destruct (LastErrorValue teb3 =? _)]; cbn [fst snd];
    rewrite ?omap_app, Ho; done.
Qed.

Lemma GrantPriviledge_looks_up os name teb :
  omap (fun c => match c with LookupPrivilegeValue n => Some n | _ => None end)
       (snd (GrantPriviledge os name teb))
  = match open_token os teb with inl _ => [name] | inr _ => [] end.
Proof.
  unfold GrantPriviledge.
  pose proof (open_token_shape os teb) as S. cbv zeta in S.
  destruct (open_token os teb) as [[[h teb1] log1]|[[st teb1] log1]];
    destruct S as (_ & _ & _ & Hlog).
  2: { cbn [snd]. by destruct Hlog as [-> | ->]. }
  assert (omap (fun c => match c with
                         | LookupPrivilegeValue n => Some n
                         | _ => None
                         end) log1 = []) as Hl
    by (by destruct Hlog as [-> | ->]).
  destruct (LookupPrivilegeValue_result os name teb1) as [[b luid] teb2].
  destruct (AdjustTokenPrivileges_result os h luid _ teb2) as [ok teb3].
  destruct (negb ok); [|destruct (LastErrorValue teb3 =? _)]; cbn [fst snd];
    rewrite ?omap_app, Hl; done.
Qed.

(** X20: constructing a [Process] attempts the debug privilege and then
    the load-driver privilege, the second also when the first could not
    be granted.  The thread token is asked for exactly twice; the names
    looked up are SeDebugPrivilege, when a token opens for the first
    attempt, followed by SeLoadDriverPrivilege, when one opens for the
    second; the last call initialises the name resolver. *)
Theorem constructor_attempts_both_privileges os teb :
  let access := Z.lor TOKEN_QUERY TOKEN_ADJUST_PRIVILEGES in
  let teb1 := snd (fst (GrantPriviledge os SE_DEBUG_NAME teb)) in
  let log := snd (Process_ctor os teb) in
  omap (fun c => match c with OpenThreadToken a => Some a | _ => None end) log
    = [access; access] /\
  omap (fun c => match c with LookupPrivilegeValue n => Some n | _ => None end) log
    = match open_token os teb with inl _ => [SE_DEBUG_NAME] | inr _ => [] end
      ++ match open_token os teb1 with
         | inl _ => [SE_LOAD_DRIVER_NAME]
         | inr _ => []
         end /\
  last log = Some NameResolveInitialize.
Proof.
  cbv zeta. unfold Process_ctor.
  pose proof (GrantPriviledge_opens_once os SE_DEBUG_NAME teb) as H1.
  pose proof (GrantPriviledge_looks_up os SE_DEBUG_NAME teb) as L1.
  destruct (GrantPriviledge os SE_DEBUG_NAME teb) as [[st1 teb1] log1].
  pose proof (GrantPriviledge_opens_once os SE_LOAD_DRIVER_NAME teb1) as H2.
  pose proof (GrantPriviledge_looks_up os SE_LOAD_DRIVER_NAME teb1) as L2.
  destruct (GrantPriviledge os SE_LOAD_DRIVER_NAME teb1) as [[st2 teb2] log2].
  cbn [fst snd] in *. split; [|split].
  - by rewrite !omap_app, H1, H2.
  - rewrite !omap_app, L1, L2. simpl. by rewrite app_nil_r.
  - rewrite app_assoc. apply last_snoc.
Qed.

End TokenFacts.

(** * Properties of the Toolhelp enumeration *)

Section ToolhelpFacts.
Import Nt Wstr Toolhelp Samples MoreSamples.

#[local] Instance ci_equal_dec a b : Decision (ci_equal a b).
Proof. unfold ci_equal. apply _. Defined.

Lemma accepts_returns continues name tEntry :
  exists ok, accepts continues name tEntry = Ret ok.
Proof. unfold accepts. destruct (empty name); simpl; eauto. Qed.

Lemma accepts_spec continues name tEntry :
  Forall (fun c => c <> 0) (szExeFile tEntry) ->
  accepts continues name tEntry
  = Ret (bool_decide (name = [] \/ ci_equal (szExeFile tEntry) (c_str name))).
Proof.
  intros Hnz. unfold accepts. destruct name as [|c name]; simpl empty.
  { by rewrite bool_decide_eq_true_2 by auto. }
  cbn [_wcsicmp]. f_equal.
  pose proof (wcsicmp_body_zero (szExeFile tEntry) (c_str (c :: name)) Hnz
                (c_str_no_terminator _)) as H.
  destruct (wcsicmp_body _ _ =? 0) eqn:E.
  - apply Z.eqb_eq in E. symmetry. apply bool_decide_eq_true_2. right. by apply H.
  - apply Z.eqb_neq in E. symmetry. apply bool_decide_eq_false_2.
    intros [?|Hci]; [done|]. by apply E, H.
Qed.

Lemma iterate_log continues name hSnap : forall entries fetch found,
  exists found',
    iterate continues name hSnap fetch entries found
    = (Ret found', fetch :: replicate (length entries) (Process32NextW hSnap)) /\
    found `prefix_of` found'.
Proof.
  induction entries as [|tEntry rest IH]; intros fetch found; simpl.
  { exists found. done. }
  destruct (accepts_returns continues name tEntry) as [ok ->].
  destruct (IH (Process32NextW hSnap)
              (if ok then found ++ [th32ProcessID tEntry] else found))
    as (found' & -> & Hpre).
  exists found'. split; [done|].
  destruct ok; [|done]. etrans; [|exact Hpre]. by apply prefix_app_r.
Qed.

Lemma iterate_found continues name hSnap : forall entries fetch found,
  Forall (fun e => Forall (fun c => c <> 0) (szExeFile e)) entries ->
  fst (iterate continues name hSnap fetch entries found)
  = Ret (found ++ map th32ProcessID
           (filter (fun e => name = [] \/ ci_equal (szExeFile e) (c_str name))
                   entries)).
Proof.
  induction entries as [|tEntry rest IH]; intros fetch found Hnz; simpl.
  { by rewrite app_nil_r. }
  inversion_clear Hnz as [|? ? He Hrest].
  rewrite (accepts_spec continues name tEntry He).
  specialize (IH (Process32NextW hSnap)
                (if bool_decide (name = [] \/ ci_equal (szExeFile tEntry) (c_str name))
                 then found ++ [th32ProcessID tEntry] else found) Hrest).
  destruct (iterate _ _ _ _ rest _) as [r log]. cbn [fst] in *. rewrite IH.
  case_bool_decide as Hd.
  - rewrite filter_cons_True by done. simpl. by rewrite <- app_assoc.
  - by rewrite filter_cons_False by done.
Qed.

(** X21: [EnumByName] does not clear [found]: on a snapshot it returns
    what [found] held, followed by the pids of the entries whose exe name
    equals the name up to the case of A-Z (of all entries when the name is
    empty), in snapshot order; pid 0 is not left out. *)
Theorem EnumByName_appends_matching_pids os name found hSnap entries :
  CreateToolhelp32Snapshot_result os = Some (hSnap, entries) ->
  Forall (fun e => Forall (fun c => c <> 0) (szExeFile e)) entries ->
  fst (EnumByName os name found)
  = Ret (found ++ map th32ProcessID
           (filter (fun e => name = [] \/ ci_equal (szExeFile e) (c_str name))
                   entries)).
Proof.
  intros Hs Hnz. unfold EnumByName. rewrite Hs.
  pose proof (iterate_found (invalid_parameter_continues os) name hSnap entries
                (Process32FirstW hSnap) found Hnz) as H.
  destruct (iterate _ _ _ _ entries _) as [r log]. cbn [fst] in H. by subst r.
Qed.

Lemma EnumByName_appends_matching_pids_witness :
  fst (EnumByName snapshot_os a_exe [1]) = Ret [1; 7; 9] /\
  fst (EnumByName snapshot_os [] []) = Ret [0; 7; 8; 9].
Proof.
  assert (Forall (fun e => Forall (fun c => c <> 0) (szExeFile e))
            [ {| th32ProcessID := 0; szExeFile := [] |};
              {| th32ProcessID := 7; szExeFile := a_exe |};
              {| th32ProcessID := 8; szExeFile := [98] |};
              {| th32ProcessID := 9; szExeFile := A_EXE |} ]) as Hnz
    by (repeat constructor; vm_compute; discriminate).
  split.
  - rewrite (EnumByName_appends_matching_pids snapshot_os a_exe [1] 0x30 _
               eq_refl Hnz). reflexivity.
  - rewrite (EnumByName_appends_matching_pids snapshot_os [] [] 0x30 _
               eq_refl Hnz). reflexivity.
Defined.

(** X22: when the snapshot cannot be created the function makes no
    other call and leaves [found] as it was; otherwise it reads the first
    entry, asks for the next one once per entry, closes the snapshot
    handle once, as its last call, and never ends in the CRT. *)
Theorem EnumByName_closes_its_snapshot os name found :
  match CreateToolhelp32Snapshot_result os with
  | None =>
      EnumByName os name found
      = (Ret found, [CreateToolhelp32Snapshot TH32CS_SNAPPROCESS 0])
  | Some (hSnap, entries) =>
      (exists found', fst (EnumByName os name found) = Ret found' /\
                      found `prefix_of` found') /\
      snd (EnumByName os name found)
      = CreateToolhelp32Snapshot TH32CS_SNAPPROCESS 0
        :: Process32FirstW hSnap
        :: replicate (length entries) (Process32NextW hSnap)
        ++ [CloseHandle hSnap]
  end.
Proof.
  unfold EnumByName.
  destruct (CreateToolhelp32Snapshot_result os) as [[hSnap entries]|]; [|done].
  destruct (iterate_log (invalid_parameter_continues os) name hSnap entries
              (Process32FirstW hSnap) found) as (found' & -> & Hpre).
  cbn [fst snd]. eauto.
Qed.

Lemma wcsicmp_body_lower_r a : forall b b',
  map towlower b = map towlower b' ->
  wcsicmp_body a b = wcsicmp_body a b'.
Proof.
  induction a as [|c a IH]; intros [|c2 b] [|c2' b']; simpl; try done.
  - intros [= Hc _]. by rewrite Hc.
  - intros [= Hc Hb]. rewrite Hc.
    destruct (towlower c =? towlower c2'); [by apply IH|done].
Qed.

(** X23: the name is matched without regard to the case of the letters
    A-Z: two names that are equal after lower-casing give the same run of
    [EnumByName]. *)
Theorem EnumByName_case_is_irrelevant os name name' found :
  ci_equal name name' ->
  EnumByName os name found = EnumByName os name' found.
Proof.
  unfold ci_equal. intros H.
  assert (forall c e, accepts c name e = accepts c name' e) as Hacc.
  { intros c e. unfold accepts.
    assert (empty name = empty name') as -> by (destruct name, name'; done).
    destruct (empty name'); [done|]. simpl.
    by rewrite (wcsicmp_body_lower_r (szExeFile e) (c_str name) (c_str name')
                  (c_str_lower name name' H)). }
  assert (forall c h entries fetch fnd,
            iterate c name h fetch entries fnd = iterate c name' h fetch entries fnd)
    as Hit.
  { intros c h. induction entries as [|e rest IH]; intros fetch fnd; simpl; [done|].
    rewrite Hacc. destruct (accepts c name' e) as [ok|]; [|done]. by rewrite IH. }
  unfold EnumByName.
  destruct (CreateToolhelp32Snapshot_result os) as [[hSnap entries]|]; [|done].
  by rewrite Hit.
Qed.

Lemma EnumByName_case_is_irrelevant_witness :
  EnumByName snapshot_os A_EXE [] = EnumByName snapshot_os a_exe [].
Proof.
  apply (EnumByName_case_is_irrelevant snapshot_os A_EXE a_exe []).
  vm_compute; reflexivity.
Defined.

End ToolhelpFacts.
